(** * The interactive-compute worker of deepforge
    (src/routers/InteractiveCompute/job-files/start.js)

    A shallow embedding of [InteractiveClient] and [InteractiveSession]:
    the command tokenizer, the task runner, the dispatch of incoming
    messages, the path containment check and the bookkeeping of sessions.

    Conventions of the embedding.
    - A JS string is a [string]; the tokenizer only ever compares a
      character with the two quotes and the space.
    - Objects that are mutated through several references (the sessions of
      a client, reached from the client's table and from the callbacks of a
      spawned process) live in a heap indexed by locations.
    - A handler runs to the end of its awaited chain before the next event
      is taken; a promise that the source starts and does not await is kept
      in the state and settled by an event of its own.
    - The operating system, the storage adapters and the Message constants
      are not part of this file of the repository: the first two are the
      members of a class, over which every statement is quantified. *)

From Stdlib Require Import ZArith Ascii String.
From stdpp Require Import gmap strings list.

Local Open Scope Z_scope.

(** ** Characters the tokenizer looks at *)

Definition dquote : ascii := Eval cbv in ascii_of_nat 34.
Definition squote : ascii := Eval cbv in ascii_of_nat 39.
Definition blank : ascii := Eval cbv in ascii_of_nat 32.

Definition str1 (c : ascii) : string := String c EmptyString.

(** ** [InteractiveSession.parseCommand] *)

Module Tokenizer.

(** The two variables of the loop: [chunks] and [quoteChar] ([None] is the
    source's [null]). *)
Record loop := Loop { chunks : list string; quoteChar : option ascii }.

Definition isQuoteChar (letter : ascii) : bool :=
  bool_decide (letter = dquote) || bool_decide (letter = squote).

(** [chunks[chunks.length - 1] = lastChunk + letter] *)
Definition appendToLast (cs : list string) (letter : ascii) : list string :=
  let i := (length cs - 1)%nat in
  let lastChunk := default EmptyString (cs !! i) in
  <[i := lastChunk +:+ str1 letter]> cs.

(** One iteration of the [for] loop on [letter = cmd[i]]. *)
Definition body (st : loop) (letter : ascii) : loop :=
  let isInQuotes := bool_decide (is_Some (quoteChar st)) in
  if negb isInQuotes && isQuoteChar letter then
    Loop (chunks st) (Some letter)
  else if bool_decide (quoteChar st = Some letter) then
    Loop (chunks st) None
  else
    let isNewChunk := bool_decide (letter = blank) && negb isInQuotes in
    if isNewChunk then Loop (chunks st ++ [EmptyString]) (quoteChar st)
    else Loop (appendToLast (chunks st) letter) (quoteChar st).

Definition run (cmd : string) (st : loop) : loop :=
  fold_left body (list_ascii_of_string cmd) st.

Definition start : loop := Loop [EmptyString] None.

Definition parseCommand (cmd : string) : list string :=
  chunks (run cmd start).

(** *** The tokenizer as the specification words it

    The text is read left to right with the token being built and the
    quote that is open, if any.  A quote opens quoting when none is open
    and is dropped; the quote that opened closes it and is dropped; a space
    outside quotes ends the token; every other character joins the token. *)
Fixpoint tokens (openQuote : option ascii) (cur : string) (s : string)
  : list string :=
  match s with
  | EmptyString => [cur]
  | String c rest =>
      match openQuote with
      | None =>
          if isQuoteChar c then tokens (Some c) cur rest
          else if bool_decide (c = blank) then cur :: tokens None EmptyString rest
          else tokens None (cur +:+ str1 c) rest
      | Some q =>
          if bool_decide (c = q) then tokens None cur rest
          else tokens (Some q) (cur +:+ str1 c) rest
      end
  end.

Definition tokenize (s : string) : list string := tokens None EmptyString s.

(** The quote that is open once [s] has been read, starting with [q]. *)
Definition quoteAfter (q : option ascii) (s : string) : option ascii :=
  quoteChar (run s (Loop [EmptyString] q)).

(** Spaces of [s] that are read outside quotes. *)
Fixpoint unquotedBlanks (q : option ascii) (s : string) : nat :=
  match s with
  | EmptyString => 0%nat
  | String c rest =>
      match q with
      | None =>
          if isQuoteChar c then unquotedBlanks (Some c) rest
          else if bool_decide (c = blank) then S (unquotedBlanks None rest)
          else unquotedBlanks None rest
      | Some o =>
          if bool_decide (c = o) then unquotedBlanks None rest
          else unquotedBlanks (Some o) rest
      end
  end.

End Tokenizer.

Import Tokenizer.

(** Strings of the examples; a double quote is built from its code. *)
Definition cmd_run_x : string :=
  "run -x " +:+ str1 dquote +:+ "a b" +:+ str1 dquote +:+ " c".
Definition cmd_echo_its : string :=
  "echo 'it" +:+ str1 dquote +:+ "s'".

(** ** Node's [path] module, POSIX flavour

    The worker calls [path.resolve], [path.relative], [path.join] and
    [path.dirname].  They are library functions; they are modelled on path
    segments, [normalizeString] being the stack walk over the segments
    between slashes. *)

Module Path.

Definition slash : ascii := Eval cbv in ascii_of_nat 47.
Definition sep : string := str1 slash.

(** [s.split('/')] *)
Fixpoint split (s : string) : list string :=
  match s with
  | EmptyString => [EmptyString]
  | String c rest =>
      if bool_decide (c = slash) then EmptyString :: split rest
      else match split rest with
           | h :: t => String c h :: t
           | [] => [str1 c]
           end
  end.

(** [segs.join('/')] *)
Fixpoint unsplit (segs : list string) : string :=
  match segs with
  | [] => EmptyString
  | [s] => s
  | s :: rest => s +:+ sep +:+ unsplit rest
  end.

Definition isAbsolute (p : string) : bool :=
  match p with String c _ => bool_decide (c = slash) | EmptyString => false end.

Fixpoint endsWithSlash (p : string) : bool :=
  match p with
  | EmptyString => false
  | String c EmptyString => bool_decide (c = slash)
  | String _ rest => endsWithSlash rest
  end.

(** One segment met by [normalizeString]; [acc] is the result so far, last
    segment first. *)
Definition normStep (allowAboveRoot : bool) (acc : list string) (seg : string)
  : list string :=
  if bool_decide (seg = EmptyString) || bool_decide (seg = ".") then acc
  else if bool_decide (seg = "..") then
    match acc with
    | top :: below =>
        if bool_decide (top = "..") then
          (if allowAboveRoot then ".." :: acc else acc)
        else below
    | [] => if allowAboveRoot then [".."] else []
    end
  else seg :: acc.

Definition normSegments (allowAboveRoot : bool) (p : string) : list string :=
  rev (fold_left (normStep allowAboveRoot) (split p) []).

(** [path.normalize] *)
Definition normalize (p : string) : string :=
  if bool_decide (p = EmptyString) then "."
  else
    let abs := isAbsolute p in
    let trailing := endsWithSlash p in
    let body := unsplit (normSegments (negb abs) p) in
    if bool_decide (body = EmptyString) then
      (if abs then sep else if trailing then "./" else ".")
    else
      let body := if trailing then body +:+ sep else body in
      if abs then sep +:+ body else body.

(** [path.join(...parts)] *)
Definition join (parts : list string) : string :=
  match filter (λ s, s ≠ EmptyString) parts with
  | [] => "."
  | nonempty => normalize (unsplit nonempty)
  end.

(** [path.resolve(p)] with one argument, [cwd] being [process.cwd()]. *)
Definition resolve (cwd p : string) : string :=
  let full :=
    if isAbsolute p then p
    else if bool_decide (p = EmptyString) then cwd
    else cwd +:+ sep +:+ p in
  let abs := isAbsolute full in
  let body := unsplit (normSegments (negb abs) full) in
  if abs then sep +:+ body
  else if bool_decide (body = EmptyString) then "." else body.

(** The segments of a resolved path. *)
Definition segments (p : string) : list string :=
  filter (λ s, s ≠ EmptyString) (split p).

Fixpoint dropCommon (xs ys : list string) : list string * list string :=
  match xs, ys with
  | x :: xs', y :: ys' =>
      if bool_decide (x = y) then dropCommon xs' ys' else (xs, ys)
  | _, _ => (xs, ys)
  end.

(** [path.relative(from, to)]: one [..] for each segment of [from] below
    the common directory, then what is left of [to]. *)
Definition relative (cwd from to : string) : string :=
  if bool_decide (from = to) then EmptyString
  else
    let from := resolve cwd from in
    let to := resolve cwd to in
    if bool_decide (from = to) then EmptyString
    else
      let '(up, down) := dropCommon (segments from) (segments to) in
      unsplit (replicate (length up) ".." ++ down).

(** The scan of [path.dirname] from the end of the path down to index 1:
    the index of the slash that ends the directory part. *)
Fixpoint dirnameEnd (backwards : list ascii) (i : nat) (matchedSlash : bool)
  : option nat :=
  match backwards with
  | [] => None
  | c :: more =>
      if bool_decide (c = slash) then
        if matchedSlash then dirnameEnd more (pred i) matchedSlash
        else Some i
      else dirnameEnd more (pred i) false
  end.

Definition take_string (n : nat) (s : string) : string :=
  string_of_list_ascii (take n (list_ascii_of_string s)).

(** [path.dirname] *)
Definition dirname (p : string) : string :=
  match list_ascii_of_string p with
  | [] => "."
  | c0 :: others =>
      let hasRoot := bool_decide (c0 = slash) in
      match dirnameEnd (rev others) (length others) true with
      | None => if hasRoot then sep else "."
      | Some e =>
          if hasRoot && bool_decide (e = 1%nat) then "//"
          else take_string e p
      end
  end.

(** A segment of a normalized absolute path: neither empty nor a dot
    segment, and without a slash. *)
Definition slashFree (s : string) : Prop := slash ∉ list_ascii_of_string s.

Definition plain (seg : string) : Prop :=
  seg ≠ EmptyString ∧ seg ≠ "." ∧ seg ≠ ".." ∧ slashFree seg.

End Path.

(** ** Values, messages and errors *)

(** A data descriptor of the storage layer: [dataInfo.backend] and the rest
    of the object, which the worker never inspects. *)
Record DataInfo := { backend : string; descriptor : nat }.

(** The JS values that travel in a completion report or a configuration. *)
Inductive Value :=
| VUndef
| VNull
| VNum (n : Z)
| VStr (s : string)
| VEmptyObject
| VData (d : DataInfo)
| VOpaque (h : nat).

(** Modelled from the spec: the kinds of [./message] (the constants
    [Message.RUN], [Message.KILL], ... of a module that is not in this
    file), as the table of the external interfaces lists them.  A request
    carries [msg.data] in the shape its handler destructures; [OTHER] is
    every kind that no branch of [InteractiveSession.onMessage] tests for. *)
Inductive Request :=
| RUN (data : string)
| KILL
| ADD_ARTIFACT (name : string) (dataInfo : DataInfo) (type : string)
    (config : Value)
| SAVE_ARTIFACT (filepath name backendName : string) (config : Value)
| ADD_FILE (filepath content : string)
| SET_ENV (name value : string)
| REMOVE_FILE (filepath : string)
| OTHER (kind : string) (data : Value).

Record Message := { sessionID : string; request : Request }.

Definition Msg (sid : string) (r : Request) : Message :=
  {| sessionID := sid; request := r |}.

(** What the worker sends: [Message.encode(sessionID, type, data)]. *)
Inductive Reply :=
| STDOUT (chunk : string)
| STDERR (chunk : string)
| COMPLETE (data : list Value).

Inductive Error :=
| SystemError (code : string)
| PlainError (message : string)
| TypeError.

Definition errorCode (e : Error) : option string :=
  match e with SystemError c => Some c | _ => None end.

Inductive outcome (A : Type) :=
| Returned (a : A)
| Thrown (e : Error).
Arguments Returned {A} a.
Arguments Thrown {A} e.

(** ** The session object, the spawned processes and the agent's state *)

Record Session := {
  ownID : string;             (* this.sessionID *)
  activeMsgCount : Z;
  subprocess : option nat     (* this.subprocess, a process id *)
}.

Definition newSession (sid : string) : Session :=
  {| ownID := sid; activeMsgCount := 0; subprocess := None |}.

#[global] Instance Session_inhabited : Inhabited Session :=
  populate (newSession EmptyString).

(** A child process: the arguments of [spawn], the session object its
    three callbacks close over, whether it still runs and how often
    [kill()] was called on it. *)
Record Process := {
  file : string;
  args : list string;
  owner : nat;
  running : bool;
  kills : nat
}.

(** The child as [spawn] returns it, with the listeners of the session
    [self]. *)
Definition newProcess (self : nat) (cmd : string) (opts : list string)
  : Process :=
  {| file := cmd; args := opts; owner := self; running := true; kills := 0 |}.

(** A promise that was started and is awaited by nobody. *)
Inductive Floating :=
| WriteFile (filepath content : string).

(** The host of the worker: file system, child processes, storage
    adapters.  [W] is the state of the world outside the worker; a call
    returns the new world and its result, [Some e] or [Thrown e] being a
    rejection (or an exception) with the error [e].  Clients and streams
    are handles. *)
Class Host (W : Type) := {
  cwd : string;                          (* process.cwd() *)
  workspace : string;                    (* __dirname *)
  fsp_mkdir : string → W → W * option Error;
  fsp_writeFile : string → string → W → W * option Error;
  fsp_unlink : string → W → W * option Error;
  (* whether child_process.spawn(cmd, opts) throws instead of returning *)
  spawn_throws : string → list string → W → option Error;
  (* requirejs(['./utils.build'], ..., reject) *)
  loadStorage : W → W * option Error;
  (* Storage.getClient(backend, _, config) *)
  getClient : string → Value → W → W * outcome nat;
  (* client.getFileStream(dataInfo) *)
  getFileStream : nat → DataInfo → W → W * outcome nat;
  (* pipeline(stream, fs.createWriteStream(path)) *)
  pipelineToFile : nat → string → W → W * option Error;
  (* fs.createReadStream(path) *)
  createReadStream : string → W → W * nat;
  (* client.putFileStream(name, stream) *)
  putFileStream : nat → string → nat → W → W * outcome DataInfo
}.

Section Worker.

Context {W : Type} `{Host W}.

Record State := {
  world : W;
  heap : list Session;               (* the session objects ever created *)
  sessions : gmap string nat;        (* client.sessions *)
  procs : list Process;
  sent : list (string * Reply);      (* ws.send, oldest first *)
  console : list Error;              (* console.log('Task failed ...') *)
  env : gmap string string;          (* process.env *)
  floating : list Floating;
  unhandled : list Error             (* rejections nobody catches *)
}.

Definition initial (w : W) : State :=
  {| world := w; heap := []; sessions := ∅; procs := []; sent := [];
     console := []; env := ∅; floating := []; unhandled := [] |}.

Definition set_world (w : W) (st : State) : State :=
  {| world := w; heap := heap st; sessions := sessions st; procs := procs st;
     sent := sent st; console := console st; env := env st;
     floating := floating st; unhandled := unhandled st |}.
Definition set_heap (h : list Session) (st : State) : State :=
  {| world := world st; heap := h; sessions := sessions st; procs := procs st;
     sent := sent st; console := console st; env := env st;
     floating := floating st; unhandled := unhandled st |}.
Definition set_sessions (m : gmap string nat) (st : State) : State :=
  {| world := world st; heap := heap st; sessions := m; procs := procs st;
     sent := sent st; console := console st; env := env st;
     floating := floating st; unhandled := unhandled st |}.
Definition set_procs (ps : list Process) (st : State) : State :=
  {| world := world st; heap := heap st; sessions := sessions st; procs := ps;
     sent := sent st; console := console st; env := env st;
     floating := floating st; unhandled := unhandled st |}.
Definition set_sent (l : list (string * Reply)) (st : State) : State :=
  {| world := world st; heap := heap st; sessions := sessions st;
     procs := procs st; sent := l; console := console st; env := env st;
     floating := floating st; unhandled := unhandled st |}.
Definition set_console (l : list Error) (st : State) : State :=
  {| world := world st; heap := heap st; sessions := sessions st;
     procs := procs st; sent := sent st; console := l; env := env st;
     floating := floating st; unhandled := unhandled st |}.
Definition set_env (e : gmap string string) (st : State) : State :=
  {| world := world st; heap := heap st; sessions := sessions st;
     procs := procs st; sent := sent st; console := console st; env := e;
     floating := floating st; unhandled := unhandled st |}.
Definition set_floating (l : list Floating) (st : State) : State :=
  {| world := world st; heap := heap st; sessions := sessions st;
     procs := procs st; sent := sent st; console := console st; env := env st;
     floating := l; unhandled := unhandled st |}.
Definition set_unhandled (l : list Error) (st : State) : State :=
  {| world := world st; heap := heap st; sessions := sessions st;
     procs := procs st; sent := sent st; console := console st; env := env st;
     floating := floating st; unhandled := l |}.

(** *** Computations: a state that is threaded and an exception that may
    be thrown *)

Definition M (A : Type) : Type := State → State * outcome A.

Definition ret {A} (a : A) : M A := λ st, (st, Returned a).
Definition throw {A} (e : Error) : M A := λ st, (st, Thrown e).
Definition bind {A B} (m : M A) (k : A → M B) : M B :=
  λ st, match m st with
        | (st', Returned a) => k a st'
        | (st', Thrown e) => (st', Thrown e)
        end.
Definition catch {A} (m : M A) (handler : Error → M A) : M A :=
  λ st, match m st with
        | (st', Returned a) => (st', Returned a)
        | (st', Thrown e) => handler e st'
        end.
Definition update (f : State → State) : M unit := λ st, (f st, Returned tt).
Definition get {A} (f : State → A) : M A := λ st, (st, Returned (f st)).

(** A call into the host that reports failure by an error. *)
Definition sys (call : W → W * option Error) : M unit :=
  λ st, let '(w, r) := call (world st) in
        (set_world w st,
         match r with None => Returned tt | Some e => Thrown e end).
Definition sysv {A} (call : W → W * outcome A) : M A :=
  λ st, let '(w, r) := call (world st) in (set_world w st, r).

End Worker.

Arguments State W : clear implicits.
Arguments M W A : clear implicits.

Declare Scope worker_scope.
Delimit Scope worker_scope with worker.
Notation "x <- m ;; k" := (bind m (λ x, k))
  (at level 100, m at next level, right associativity) : worker_scope.
Notation "m ;; k" := (bind m (λ _, k))
  (at level 100, right associativity) : worker_scope.
Local Open Scope worker_scope.

Section Code.

Context {W : Type} `{Host W}.

Local Abbreviation M := (M W).
Local Abbreviation State := (State W).

(** *** Free functions of the file *)

(** [mkdirp(...dirs)]: the reduce threads the directory made so far,
    starting from [process.cwd()]; [EEXIST] is swallowed, every other
    error leaves the chain, and the directories after it are not tried. *)
Fixpoint mkdirpFrom (dir : string) (dirs : list string) : M string :=
  match dirs with
  | [] => ret dir
  | nextDir :: more =>
      let dir := Path.join [dir; nextDir] in
      catch (sys (fsp_mkdir dir))
            (λ err, if bool_decide (errorCode err ≠ Some "EEXIST")
                    then throw err else ret tt) ;;
      mkdirpFrom dir more
  end.

Definition mkdirp (dirs : list string) : M unit :=
  mkdirpFrom cwd dirs ;; ret tt.

Definition initFile (name type : string) : string :=
  let dataPathCode := "path.join(path.dirname(__file__), 'data')" in
  String.concat (str1 (ascii_of_nat 10))
    [ "import deepforge";
      "from os import path";
      "name = '" +:+ name +:+ "'";
      "type = '" +:+ type +:+ "'";
      "data = deepforge.serialization.load('" +:+ type +:+ "', open(" +:+
        dataPathCode +:+ ", 'rb'))" ].

(** [getStorageAdapters()] *)
Definition getStorageAdapters : M unit := sys loadStorage.

(** *** [InteractiveSession] ([this] is the location [self]) *)

Definition this (self : nat) : M Session :=
  get (λ st, heap st !!! self).

Definition setThis (self : nat) (f : Session → Session) : M unit :=
  update (λ st, set_heap (alter f self (heap st)) st).

Definition addCount (d : Z) (s : Session) : Session :=
  {| ownID := ownID s; activeMsgCount := activeMsgCount s + d;
     subprocess := subprocess s |}.

Definition setSubprocess (pid : nat) (s : Session) : Session :=
  {| ownID := ownID s; activeMsgCount := activeMsgCount s;
     subprocess := Some pid |}.

(** [sendMessage(type, data)]: the body has no [await], the frame is on
    the socket when the call returns. *)
Definition sendMessage (self : nat) (reply : Reply) : M unit :=
  s <- this self ;;
  update (λ st, set_sent (sent st ++ [(ownID s, reply)]) st).

(** [onTaskComplete(...data)] *)
Definition onTaskComplete (self : nat) (data : list Value) : M unit :=
  sendMessage self (COMPLETE data) ;;
  setThis self (addCount (-1)).

(** [runTask(fn)]: [result] stays [undefined] when [fn] throws or
    rejects. *)
Definition runTask (self : nat) (fn : M Value) : M unit :=
  r <- catch (result <- fn ;; ret (0, result))
             (λ err,
                update (λ st, set_console (console st ++ [err]) st) ;;
                ret (1, VUndef)) ;;
  onTaskComplete self [VNum (fst r); snd r].

(** [ensureValidPath(filepath)] *)
Definition isOutsideWorkspace (filepath : string) : bool :=
  String.prefix ".."
    (Path.relative cwd (Path.resolve cwd workspace)
                       (Path.resolve cwd filepath)).

Definition ensureValidPath (filepath : string) : M unit :=
  if isOutsideWorkspace filepath then
    throw (PlainError ("Cannot edit files outside workspace: " +:+ filepath))
  else ret tt.

(** [writeFile(filepath, content)] *)
Definition writeFile (filepath content : string) : M unit :=
  let dirs := Path.split (Path.dirname filepath) in
  mkdirp dirs ;;
  sys (fsp_writeFile filepath content).

(** A call of an async function whose promise is dropped. *)
Definition detach (job : Floating) : M unit :=
  update (λ st, set_floating (floating st ++ [job]) st).

(** [spawn(cmd, opts)] with the three listeners the RUN branch attaches:
    they close over [self]. *)
Definition spawn (self : nat) (cmd : string) (opts : list string) : M nat :=
  fault <- get (λ st, spawn_throws cmd opts (world st)) ;;
  match fault with
  | Some e => throw e
  | None =>
      pid <- get (λ st, length (procs st)) ;;
      update (λ st, set_procs (procs st ++ [newProcess self cmd opts]) st) ;;
      ret pid
  end.

Definition addKill (p : Process) : Process :=
  {| file := file p; args := args p; owner := owner p;
     running := running p; kills := S (kills p) |}.

(** [subprocess.kill()] *)
Definition kill (pid : nat) : M unit :=
  update (λ st, set_procs (alter addKill pid (procs st)) st).

Definition orEmptyObject (config : Value) : Value :=
  match config with VUndef => VEmptyObject | _ => config end.

Definition fetchArtifact (name : string) (dataInfo : DataInfo)
    (type : string) (config : Value) (dirs : list string) : M Value :=
  client <- sysv (getClient (backend dataInfo) config) ;;
  let dataPath := Path.join (dirs ++ ["data"]) in
  stream <- sysv (getFileStream client dataInfo) ;;
  sys (pipelineToFile stream dataPath) ;;
  let filePath := Path.join (dirs ++ ["__init__.py"]) in
  sys (fsp_writeFile filePath (initFile name type)) ;;
  ret VUndef.

Definition saveArtifact (filepath name backendName : string)
    (config : Value) : M Value :=
  client <- sysv (getClient backendName config) ;;
  stream <- (λ st, let '(w, s) := createReadStream filepath (world st) in
                   (set_world w st, Returned s)) ;;
  dataInfo <- sysv (putFileStream client name stream) ;;
  ret (VData dataInfo).

(** [InteractiveSession.onMessage(msg)].  In the RUN branch an empty
    array of tokens would leave [cmd] undefined, on which [spawn] throws
    a [TypeError]. *)
Definition sessionOnMessage (self : nat) (msg : Message) : M unit :=
  setThis self (addCount 1) ;;
  match request msg with
  | RUN data =>
      match parseCommand data with
      | cmd :: opts =>
          pid <- spawn self cmd opts ;;
          setThis self (setSubprocess pid)
      | [] => throw TypeError
      end
  | KILL =>
      s <- this self ;;
      match subprocess s with
      | Some pid => kill pid
      | None => ret tt
      end
  | ADD_ARTIFACT name dataInfo type config =>
      let config := orEmptyObject config in
      let dirs := ["artifacts"; name] in
      mkdirp dirs ;;
      getStorageAdapters ;;
      runTask self (fetchArtifact name dataInfo type config dirs)
  | SAVE_ARTIFACT filepath name backendName config =>
      let config := orEmptyObject config in
      getStorageAdapters ;;
      runTask self (saveArtifact filepath name backendName config)
  | ADD_FILE filepath content =>
      runTask self
        (ensureValidPath filepath ;;
         detach (WriteFile filepath content) ;;
         ret VUndef)
  | SET_ENV name value =>
      runTask self
        (update (λ st, set_env (<[name := value]> (env st)) st) ;;
         ret VUndef)
  | REMOVE_FILE filepath =>
      runTask self
        (ensureValidPath filepath ;;
         sys (fsp_unlink filepath) ;;
         ret VUndef)
  | OTHER _ _ => onTaskComplete self [VNum 2]
  end.

(** *** [InteractiveClient] *)

(** [new InteractiveSession(sessionID, this.ws)]: a new object. *)
Definition allocSession (sid : string) : M nat :=
  self <- get (λ st, length (heap st)) ;;
  update (λ st, set_heap (heap st ++ [newSession sid]) st) ;;
  ret self.

(** [InteractiveClient.onMessage(msg)].  A rejection of the session's
    [onMessage] skips the check; the check reads [activeMsgCount] of the
    entry of the table, a [TypeError] if the entry is gone. *)
Definition clientOnMessage (msg : Message) : M unit :=
  let sid := sessionID msg in
  known <- get (λ st, sessions st !! sid) ;;
  self <- match known with
          | Some self => ret self
          | None =>
              self <- allocSession sid ;;
              update (λ st, set_sessions (<[sid := self]> (sessions st)) st) ;;
              ret self
          end ;;
  sessionOnMessage self msg ;;
  entry <- get (λ st, sessions st !! sid) ;;
  match entry with
  | None => throw TypeError
  | Some self' =>
      s <- this self' ;;
      if bool_decide (activeMsgCount s = 0) then
        update (λ st, set_sessions (delete sid (sessions st)) st)
      else ret tt
  end.

(** *** The events the worker reacts to

    A message on the socket, the events of a child, and the settling of a
    floating promise.  ['exit'] is emitted once per child: the exit of a
    child that has exited is no event. *)

Inductive Event :=
| Receive (msg : Message)                 (* ws 'message' *)
| ProcExit (pid : nat) (code : Value)     (* subprocess 'exit' *)
| ProcStdout (pid : nat) (chunk : string) (* subprocess.stdout 'data' *)
| ProcStderr (pid : nat) (chunk : string) (* subprocess.stderr 'data' *)
| Settle.                                 (* the oldest floating promise *)

Definition markExited (p : Process) : Process :=
  {| file := file p; args := args p; owner := owner p;
     running := false; kills := kills p |}.

(** A promise nobody awaits: a rejection is recorded, nothing else. *)
Definition top (m : M unit) (st : State) : State :=
  match m st with
  | (st', Returned _) => st'
  | (st', Thrown e) => set_unhandled (unhandled st' ++ [e]) st'
  end.

Definition step (ev : Event) (st : State) : State :=
  match ev with
  | Receive msg => top (clientOnMessage msg) st
  | ProcExit pid code =>
      match procs st !! pid with
      | Some p =>
          if running p then
            top (update (λ st, set_procs (alter markExited pid (procs st)) st) ;;
                 onTaskComplete (owner p) [code]) st
          else st
      | None => st
      end
  | ProcStdout pid chunk =>
      match procs st !! pid with
      | Some p => top (sendMessage (owner p) (STDOUT chunk)) st
      | None => st
      end
  | ProcStderr pid chunk =>
      match procs st !! pid with
      | Some p => top (sendMessage (owner p) (STDERR chunk)) st
      | None => st
      end
  | Settle =>
      match floating st with
      | WriteFile filepath content :: rest =>
          top (writeFile filepath content) (set_floating rest st)
      | [] => st
      end
  end.

Definition exec (evs : list Event) (st : State) : State :=
  fold_left (λ st ev, step ev st) evs st.

End Code.

(** ** Notions used by the statements *)

Section Notions.

Context {W : Type} `{Host W}.

(** The session object a message for [sid] is dispatched to: the one in
    the client's table, or the object that is about to be created. *)
Definition target (st : State W) (sid : string) : nat :=
  default (length (heap st)) (sessions st !! sid).

(** Running children whose listeners close over the session [self]. *)
Definition runningOf (self : nat) (ps : list Process) : nat :=
  length (filter (λ p, running p = true ∧ owner p = self) ps).

(** What holds of every state the worker can reach: the table points at
    live objects that carry their key, a process belongs to an object
    that exists, and a session counts at least its running children. *)
Record consistent (st : State W) : Prop := {
  table_ok : ∀ sid self, sessions st !! sid = Some self →
               ∃ s, heap st !! self = Some s ∧ ownID s = sid;
  owner_ok : ∀ pid p, procs st !! pid = Some p →
               (owner p < length (heap st))%nat;
  count_ok : ∀ self s, heap st !! self = Some s →
               Z.of_nat (runningOf self (procs st)) ≤ activeMsgCount s
}.

(** A computation that stays off the stage: it may change the world, the
    environment and the floating promises, but no session and no process;
    it sends nothing, logs nothing and leaves no rejection behind. *)
Definition sameStage (st st' : State W) : Prop :=
  heap st' = heap st ∧ sessions st' = sessions st ∧
  procs st' = procs st ∧ sent st' = sent st ∧
  console st' = console st ∧ unhandled st' = unhandled st.

Definition offstage {A} (m : M W A) : Prop :=
  ∀ st, sameStage st (fst (m st)).

(** What one call of [InteractiveSession.onMessage] on the object [self]
    can do to the stage, from [st] to [st']. *)
Inductive Dispatch (self : nat) (st st' : State W) : outcome unit → Prop :=
| DispatchCompleted (data : list Value) :
    (* the handler has reported: the counter is back where it was *)
    heap st' = heap st →
    procs st' = procs st →
    sent st' = sent st ++ [(ownID (heap st !!! self), COMPLETE data)] →
    Dispatch self st st' (Returned tt)
| DispatchSpawned (cmd : string) (opts : list string) :
    (* a child runs: its exit will report *)
    heap st' =
      alter (setSubprocess (length (procs st)))
            self (alter (addCount 1) self (heap st)) →
    procs st' = procs st ++ [newProcess self cmd opts] →
    sent st' = sent st →
    Dispatch self st st' (Returned tt)
| DispatchKill :
    (* KILL: nothing is reported *)
    heap st' = alter (addCount 1) self (heap st) →
    procs st' =
      match subprocess (heap st !!! self) with
      | Some pid => alter addKill pid (procs st)
      | None => procs st
      end →
    sent st' = sent st →
    Dispatch self st st' (Returned tt)
| DispatchThrown (e : Error) :
    (* the handler rejected before it reached a report *)
    heap st' = alter (addCount 1) self (heap st) →
    procs st' = procs st →
    sent st' = sent st →
    Dispatch self st st' (Thrown e).

(** The state in which a handler starts: the counter has been
    incremented. *)
Definition entered (self : nat) (st : State W) : State W :=
  set_heap (alter (addCount 1) self (heap st)) st.

(** The state in which the client calls the session: the object for
    [sid] exists and is in the table. *)
Definition prepared (st : State W) (sid : string) : State W :=
  match sessions st !! sid with
  | Some _ => st
  | None =>
      set_sessions (<[sid := length (heap st)]> (sessions st))
        (set_heap (heap st ++ [newSession sid]) st)
  end.

(** The check of the client after the session has returned. *)
Definition evict (sid : string) (st : State W) : State W * outcome unit :=
  match sessions st !! sid with
  | None => (st, Thrown TypeError)
  | Some self =>
      if bool_decide (activeMsgCount (heap st !!! self) = 0)
      then (set_sessions (delete sid (sessions st)) st, Returned tt)
      else (st, Returned tt)
  end.

Definition isReceive (ev : Event) : bool :=
  match ev with Receive _ => true | _ => false end.

Definition isExitOf (pid : nat) (ev : Event) : bool :=
  match ev with ProcExit k _ => bool_decide (k = pid) | _ => false end.

(** The resolved path lies in the workspace: the segments of the resolved
    workspace directory are the first segments of the resolved path. *)
Definition insideWorkspace (filepath : string) : Prop :=
  Path.segments (Path.resolve cwd workspace)
    `prefix_of` Path.segments (Path.resolve cwd filepath).

End Notions.

(** ** A host to run the worker on

    A disk in memory: directories, files by resolved path, and a switch
    that makes every mutation fail with [EACCES]. *)

Record Disk := {
  dirs : gset string;
  files : gmap string string;
  writable : bool
}.

Definition withDir (d : string) (k : Disk) : Disk :=
  {| dirs := {[d]} ∪ dirs k; files := files k; writable := writable k |}.
Definition withFiles (f : gmap string string) (k : Disk) : Disk :=
  {| dirs := dirs k; files := f; writable := writable k |}.

Definition root : string := "/workspace".

Definition disk_mkdir (d : string) (k : Disk) : Disk * option Error :=
  let d := Path.resolve root d in
  if bool_decide (d ∈ dirs k) then (k, Some (SystemError "EEXIST"))
  else if writable k then (withDir d k, None)
  else (k, Some (SystemError "EACCES")).

Definition disk_writeFile (p content : string) (k : Disk)
  : Disk * option Error :=
  if writable k then
    (withFiles (<[Path.resolve root p := content]> (files k)) k, None)
  else (k, Some (SystemError "EACCES")).

Definition disk_unlink (p : string) (k : Disk) : Disk * option Error :=
  let p := Path.resolve root p in
  match files k !! p with
  | None => (k, Some (SystemError "ENOENT"))
  | Some _ =>
      if writable k then (withFiles (delete p (files k)) k, None)
      else (k, Some (SystemError "EACCES"))
  end.

#[global] Instance diskHost : Host Disk := {|
  cwd := root;
  workspace := root;
  fsp_mkdir := disk_mkdir;
  fsp_writeFile := disk_writeFile;
  fsp_unlink := disk_unlink;
  spawn_throws := λ cmd _ _,
    if bool_decide (cmd = EmptyString)
    then Some (PlainError "ERR_INVALID_ARG_VALUE") else None;
  loadStorage := λ k, (k, None);
  getClient := λ _ _ k, (k, Returned 0%nat);
  getFileStream := λ _ _ k, (k, Returned 0%nat);
  pipelineToFile := λ _ p k, disk_writeFile p EmptyString k;
  createReadStream := λ _ k, (k, 0%nat);
  putFileStream := λ _ name _ k,
    (k, Returned {| backend := "memory"; descriptor := 0 |})
|}.

Definition emptyDisk : Disk :=
  {| dirs := {[root]}; files := ∅; writable := true |}.
Definition readOnlyDisk : Disk :=
  {| dirs := {[root]}; files := ∅; writable := false |}.

Definition runOn (k : Disk) (evs : list Event) : State Disk :=
  exec evs (initial k).

(** The state after [RUN true] and the exit of the child with code 0. *)
Definition afterExit : State Disk :=
  runOn emptyDisk [Receive (Msg "s" (RUN "true")); ProcExit 0 (VNum 0)].

(** ** Notions for the further properties *)

Section MoreNotions.

Context {W : Type} `{Host W}.

(** The kinds whose handler is one [runTask] or the last [else]: a report
    follows whatever the host does. *)
Definition alwaysReports (r : Request) : bool :=
  match r with
  | ADD_FILE _ _ | SET_ENV _ _ | REMOVE_FILE _ | OTHER _ _ => true
  | _ => false
  end.

(** Chunks that a child writes, [true] marking the error stream: the
    events they cause and the frames they should become. *)
Definition outputEvents (pid : nat) (out : list (bool * string)) : list Event :=
  map (λ o : bool * string,
         if fst o then ProcStderr pid (snd o) else ProcStdout pid (snd o))
      out.

Definition outputFrames (sid : string) (out : list (bool * string))
  : list (string * Reply) :=
  map (λ o : bool * string,
         (sid, if fst o then STDERR (snd o) else STDOUT (snd o))) out.

(** The directory [mkdirp] has reached after [dirs], from [dir]. *)
Definition lastDir (dir : string) (dirs : list string) : string :=
  fold_left (λ d nextDir, Path.join [d; nextDir]) dirs dir.

(** Links between sessions and children that every reachable state has:
    [this.subprocess] is a child of the session itself, and the session
    of a running child is the entry of the table under its identifier. *)
Record linked (st : State W) : Prop := {
  sub_ok : ∀ (self : nat) (s : Session) (pid : nat),
             heap st !! self = Some s →
             subprocess s = Some pid →
             ∃ p, procs st !! pid = Some p ∧ owner p = self;
  live_ok : ∀ (pid : nat) (p : Process) (s : Session),
              procs st !! pid = Some p → running p = true →
              heap st !! owner p = Some s →
              sessions st !! ownID s = Some (owner p)
}.

(** Every event but the arrival of a KILL. *)
Definition noKill (ev : Event) : bool :=
  match ev with
  | Receive msg => match request msg with KILL => false | _ => true end
  | _ => true
  end.

(** A child on which [kill()] has been called [n] times. *)
Definition killed (n : nat) (p : Process) : Process :=
  {| file := file p; args := args p; owner := owner p;
     running := running p; kills := (n + kills p)%nat |}.

(** The books of one session identifier: the messages received for it,
    the COMPLETE frames sent for it, and the messages the session objects
    made for it still count as in flight. *)
Definition isReceiveFor (sid : string) (ev : Event) : bool :=
  match ev with
  | Receive msg => bool_decide (sessionID msg = sid)
  | _ => false
  end.

Definition received (sid : string) (evs : list Event) : nat :=
  length (filter (λ ev, isReceiveFor sid ev = true) evs).

Definition isReport (sid : string) (frame : string * Reply) : bool :=
  match snd frame with
  | COMPLETE _ => bool_decide (fst frame = sid)
  | _ => false
  end.

Definition reports (sid : string) (frames : list (string * Reply)) : nat :=
  length (filter (λ frame, isReport sid frame = true) frames).

Definition pending (sid : string) (objects : list Session) : Z :=
  foldr (λ s n, (if bool_decide (ownID s = sid)
                 then activeMsgCount s else 0) + n) 0 objects.

End MoreNotions.

(** A command without any quote character. *)
Definition quoteFree (s : string) : Prop :=
  Forall (λ c, isQuoteChar c = false) (list_ascii_of_string s).

(** * Properties *)

(** ** The tokenizer *)

Section TokenizerFacts.

Local Open Scope nat_scope.

Lemma append_cons c (a b : string) : String c a +:+ b = String c (a +:+ b).
Proof. reflexivity. Qed.

Lemma append_nil_l (b : string) : EmptyString +:+ b = b.
Proof. reflexivity. Qed.

Lemma append_nil_r (a : string) : a +:+ EmptyString = a.
Proof. induction a as [|c a IH]; [done|]. by rewrite append_cons, IH. Qed.

Lemma append_assoc (a b c : string) : (a +:+ b) +:+ c = a +:+ (b +:+ c).
Proof. induction a as [|x a IH]; [done|]. by rewrite !append_cons, IH. Qed.

Lemma run_cons c s st : run (String c s) st = run s (body st c).
Proof. reflexivity. Qed.

Lemma run_app a b st : run (a +:+ b) st = run b (run a st).
Proof.
  revert st. induction a as [|c a IH]; intros st; [done|].
  change (String c a +:+ b) with (String c (a +:+ b)).
  by rewrite !run_cons, IH.
Qed.

Lemma appendToLast_snoc pre cur c :
  appendToLast (pre ++ [cur]) c = pre ++ [cur +:+ str1 c].
Proof.
  unfold appendToLast. rewrite length_app. cbn [length].
  replace (length pre + 1 - 1) with (length pre + 0) by lia.
  rewrite lookup_app_r, insert_app_r by lia.
  by replace (length pre + 0 - length pre) with 0 by lia.
Qed.

(** The four cases of the loop body, on a list of chunks that ends with the
    chunk being built. *)
Lemma inQuotes_Some (q : ascii) : bool_decide (is_Some (Some q)) = true.
Proof. apply bool_decide_eq_true_2. eauto. Qed.

Lemma inQuotes_None : bool_decide (is_Some (@None ascii)) = false.
Proof. apply bool_decide_eq_false_2. by intros [? ?]. Qed.

Lemma body_open pre cur c :
  isQuoteChar c = true →
  body (Loop (pre ++ [cur]) None) c = Loop (pre ++ [cur]) (Some c).
Proof.
  intros Hq. unfold body. cbn [chunks quoteChar].
  by rewrite inQuotes_None, Hq.
Qed.

Lemma body_blank pre cur :
  body (Loop (pre ++ [cur]) None) blank =
  Loop ((pre ++ [cur]) ++ [EmptyString]) None.
Proof.
  unfold body. cbn [chunks quoteChar]. by rewrite inQuotes_None.
Qed.

Lemma body_plain pre cur c :
  isQuoteChar c = false → c ≠ blank →
  body (Loop (pre ++ [cur]) None) c = Loop (pre ++ [cur +:+ str1 c]) None.
Proof.
  intros Hq Hb. unfold body. cbn [chunks quoteChar].
  rewrite inQuotes_None, Hq. cbn [negb andb].
  rewrite (bool_decide_eq_false_2 (None = Some c)) by done.
  rewrite (bool_decide_eq_false_2 (c = blank)) by done. cbn [andb].
  by rewrite appendToLast_snoc.
Qed.

Lemma body_close pre cur q :
  body (Loop (pre ++ [cur]) (Some q)) q = Loop (pre ++ [cur]) None.
Proof.
  unfold body. cbn [chunks quoteChar]. rewrite inQuotes_Some. cbn [negb andb].
  by rewrite bool_decide_eq_true_2.
Qed.

Lemma body_quoted pre cur q c :
  c ≠ q →
  body (Loop (pre ++ [cur]) (Some q)) c =
  Loop (pre ++ [cur +:+ str1 c]) (Some q).
Proof.
  intros Hne. unfold body. cbn [chunks quoteChar].
  rewrite inQuotes_Some. cbn [negb andb].
  rewrite bool_decide_eq_false_2 by congruence.
  rewrite andb_false_r. by rewrite appendToLast_snoc.
Qed.

(** The loop of the source computes the tokens of the specification. *)
Lemma run_tokens s pre cur q :
  chunks (run s (Loop (pre ++ [cur]) q)) = pre ++ tokens q cur s.
Proof.
  revert pre cur q. induction s as [|c s IH]; intros pre cur q; [done|].
  rewrite run_cons. cbn [tokens]. destruct q as [q|].
  - destruct (decide (c = q)) as [->|Hne].
    + rewrite body_close, bool_decide_eq_true_2 by done. apply IH.
    + rewrite body_quoted, bool_decide_eq_false_2 by done. apply IH.
  - destruct (isQuoteChar c) eqn:Hq.
    + rewrite body_open by done. apply IH.
    + destruct (decide (c = blank)) as [->|Hb].
      * rewrite body_blank, bool_decide_eq_true_2 by done.
        rewrite IH. by rewrite <- app_assoc.
      * rewrite body_plain, bool_decide_eq_false_2 by done. apply IH.
Qed.

Lemma parseCommand_tokenize cmd : parseCommand cmd = tokenize cmd.
Proof. apply (run_tokens cmd [] EmptyString None). Qed.

(** The quote state does not depend on the chunks. *)
Lemma quoteChar_body st st' c :
  quoteChar st = quoteChar st' →
  quoteChar (body st c) = quoteChar (body st' c).
Proof.
  intros E. unfold body. rewrite <- E.
  repeat (case_match; cbn [quoteChar]); congruence.
Qed.

Lemma quoteChar_run s st st' :
  quoteChar st = quoteChar st' →
  quoteChar (run s st) = quoteChar (run s st').
Proof.
  revert st st'. induction s as [|c s IH]; intros st st' E; [done|].
  rewrite !run_cons. apply IH. by apply quoteChar_body.
Qed.

Lemma quoteAfter_cons q c s :
  quoteAfter q (String c s) =
  quoteAfter (quoteChar (body (Loop [EmptyString] q) c)) s.
Proof.
  unfold quoteAfter. rewrite run_cons. by apply quoteChar_run.
Qed.

Lemma quoteAfter_close q s :
  quoteAfter (Some q) (String q s) = quoteAfter None s.
Proof.
  rewrite quoteAfter_cons.
  by rewrite (body_close [] EmptyString q : body (Loop [_] _) _ = _).
Qed.

Lemma quoteAfter_quoted q c s :
  c ≠ q → quoteAfter (Some q) (String c s) = quoteAfter (Some q) s.
Proof.
  intros Hne. rewrite quoteAfter_cons.
  by rewrite (body_quoted [] EmptyString q c Hne : body (Loop [_] _) _ = _).
Qed.

Lemma quoteAfter_open c s :
  isQuoteChar c = true → quoteAfter None (String c s) = quoteAfter (Some c) s.
Proof.
  intros Hq. rewrite quoteAfter_cons.
  by rewrite (body_open [] EmptyString c Hq : body (Loop [_] _) _ = _).
Qed.

Lemma quoteAfter_blank s :
  quoteAfter None (String blank s) = quoteAfter None s.
Proof.
  rewrite quoteAfter_cons.
  by rewrite (body_blank [] EmptyString : body (Loop [_] _) _ = _).
Qed.

Lemma quoteAfter_plain c s :
  isQuoteChar c = false → c ≠ blank →
  quoteAfter None (String c s) = quoteAfter None s.
Proof.
  intros Hq Hb. rewrite quoteAfter_cons.
  by rewrite (body_plain [] EmptyString c Hq Hb : body (Loop [_] _) _ = _).
Qed.

(** An unquoted space after [a] starts the tokens of [b] afresh. *)
Lemma tokens_blank q cur a b :
  quoteAfter q a = None →
  tokens q cur (a +:+ String blank b) =
  tokens q cur a ++ tokens None EmptyString b.
Proof.
  revert q cur. induction a as [|c a IH]; intros q cur.
  - unfold quoteAfter. cbn. intros ->. reflexivity.
  - change (String c a +:+ String blank b)
      with (String c (a +:+ String blank b)).
    cbn [tokens]. destruct q as [q|].
    + destruct (decide (c = q)) as [->|Hne].
      * rewrite quoteAfter_close, bool_decide_eq_true_2 by done. apply IH.
      * rewrite quoteAfter_quoted, bool_decide_eq_false_2 by done. apply IH.
    + destruct (isQuoteChar c) eqn:Hq.
      * rewrite quoteAfter_open by done. apply IH.
      * destruct (decide (c = blank)) as [->|Hb].
        -- rewrite quoteAfter_blank, bool_decide_eq_true_2 by done.
           intros E. by rewrite IH.
        -- rewrite quoteAfter_plain, bool_decide_eq_false_2 by done.
           apply IH.
Qed.

Lemma tokens_length q cur s :
  length (tokens q cur s) = S (unquotedBlanks q s).
Proof.
  revert q cur. induction s as [|c s IH]; intros q cur; [done|].
  cbn [tokens unquotedBlanks].
  repeat case_match; cbn [length]; by rewrite ?IH.
Qed.

(** A span between two quotes of one kind joins the chunk being built,
    letter for letter. *)
Lemma run_quoted_span q span pre cur :
  q ∉ list_ascii_of_string span →
  run (span +:+ str1 q) (Loop (pre ++ [cur]) (Some q)) =
  Loop (pre ++ [cur +:+ span]) None.
Proof.
  revert cur. induction span as [|c span IH]; intros cur Hnot.
  - rewrite append_nil_l, append_nil_r. unfold str1.
    by rewrite run_cons, body_close.
  - cbn [list_ascii_of_string] in Hnot.
    apply not_elem_of_cons in Hnot as [Hne Hnot].
    rewrite append_cons, run_cons, body_quoted by done.
    rewrite IH by done. by rewrite append_assoc.
Qed.

End TokenizerFacts.

(** ** Paths *)

Section PathFacts.

Import Path.

Local Open Scope nat_scope.

Lemma split_cons_slash rest : split (String slash rest) = EmptyString :: split rest.
Proof. cbn [split]. by rewrite bool_decide_eq_true_2. Qed.

Lemma split_cons_other c rest :
  c ≠ slash →
  split (String c rest) =
  match split rest with h :: t => String c h :: t | [] => [str1 c] end.
Proof. intros Hc. cbn [split]. by rewrite bool_decide_eq_false_2. Qed.

Lemma split_nonempty s : split s ≠ [].
Proof.
  destruct s as [|c rest]; [done|].
  destruct (decide (c = slash)) as [->|Hc].
  - by rewrite split_cons_slash.
  - rewrite split_cons_other by done. by destruct (split rest).
Qed.

Lemma slashFree_nil : slashFree EmptyString.
Proof. unfold slashFree. cbn. apply not_elem_of_nil. Qed.

Lemma slashFree_cons c s : slashFree (String c s) ↔ c ≠ slash ∧ slashFree s.
Proof.
  unfold slashFree. cbn [list_ascii_of_string]. rewrite not_elem_of_cons.
  split; intros [? ?]; by split.
Qed.

Lemma split_slashFree s : Forall slashFree (split s).
Proof.
  induction s as [|c rest IH].
  - repeat constructor. apply slashFree_nil.
  - destruct (decide (c = slash)) as [->|Hc].
    + rewrite split_cons_slash. constructor; [apply slashFree_nil|done].
    + rewrite split_cons_other by done.
      destruct (split rest) as [|h t].
      * repeat constructor. apply slashFree_cons. split; [done|].
        apply slashFree_nil.
      * inversion IH; subst. constructor; [|done].
        by apply slashFree_cons.
Qed.

(** Splitting what was joined: a segment without slash comes back. *)
Lemma split_one s : slashFree s → split s = [s].
Proof.
  induction s as [|c rest IH]; [done|].
  intros [Hc Hrest]%slashFree_cons.
  by rewrite split_cons_other, IH.
Qed.

Lemma split_app_slash s t :
  slashFree s → split (s +:+ sep +:+ t) = s :: split t.
Proof.
  induction s as [|c rest IH].
  - intros _. rewrite append_nil_l. unfold sep, str1.
    by rewrite append_cons, append_nil_l, split_cons_slash.
  - intros [Hc Hrest]%slashFree_cons.
    by rewrite append_cons, split_cons_other, IH.
Qed.

Lemma split_unsplit segs :
  Forall slashFree segs → segs ≠ [] → split (unsplit segs) = segs.
Proof.
  induction 1 as [|s rest Hs Hrest IH]; [done|]. intros _.
  destruct rest as [|s' rest]; cbn [unsplit].
  - by apply split_one.
  - rewrite split_app_slash by done. f_equal. by apply IH.
Qed.

Lemma normStep_plain acc seg :
  Forall plain acc → slashFree seg → Forall plain (normStep false acc seg).
Proof.
  intros Hacc Hseg. unfold normStep.
  destruct (decide (seg = EmptyString)) as [->|H1]; [done|].
  destruct (decide (seg = ".")) as [->|H2]; [done|].
  rewrite !bool_decide_eq_false_2 by done. cbn [orb].
  case_bool_decide as H3.
  - destruct Hacc as [|top below Htop Hbelow]; [done|].
    case_bool_decide; [by constructor|done].
  - by constructor.
Qed.

Lemma fold_normStep_plain segs acc :
  Forall plain acc → Forall slashFree segs →
  Forall plain (fold_left (normStep false) segs acc).
Proof.
  intros Hacc Hsegs. revert acc Hacc.
  induction Hsegs as [|seg segs Hseg _ IH]; intros acc Hacc; [done|].
  cbn. apply IH. by apply normStep_plain.
Qed.

Lemma normSegments_plain p : Forall plain (normSegments false p).
Proof.
  unfold normSegments. apply Forall_rev.
  apply fold_normStep_plain; [constructor|apply split_slashFree].
Qed.

Lemma normStep_push acc seg :
  plain seg → normStep false acc seg = seg :: acc.
Proof.
  intros (H1 & H2 & H3 & _). unfold normStep.
  by rewrite !bool_decide_eq_false_2 by done.
Qed.

Lemma normStep_empty allow acc : normStep allow acc EmptyString = acc.
Proof. unfold normStep. by rewrite bool_decide_eq_true_2. Qed.

Lemma fold_normStep_push segs acc :
  Forall plain segs → fold_left (normStep false) segs acc = rev segs ++ acc.
Proof.
  intros Hsegs. revert acc.
  induction Hsegs as [|seg segs Hseg _ IH]; intros acc; [done|].
  cbn. rewrite normStep_push, IH by done. by rewrite <- app_assoc.
Qed.

Lemma plain_slashFree segs : Forall plain segs → Forall slashFree segs.
Proof.
  intros Hsegs. eapply Forall_impl; [exact Hsegs|].
  by intros seg (_ & _ & _ & ?).
Qed.

Lemma split_rooted segs :
  Forall plain segs →
  split (sep +:+ unsplit segs) =
  EmptyString :: match segs with [] => [EmptyString] | _ => segs end.
Proof.
  intros Hsegs. unfold sep, str1.
  rewrite append_cons, append_nil_l, split_cons_slash. f_equal.
  destruct segs as [|s rest]; [done|].
  apply split_unsplit; [by apply plain_slashFree|done].
Qed.

(** A rooted path of plain segments is its own normal form. *)
Lemma normSegments_rooted segs :
  Forall plain segs → normSegments false (sep +:+ unsplit segs) = segs.
Proof.
  intros Hsegs. unfold normSegments. rewrite split_rooted by done.
  destruct segs as [|s rest]; [by vm_compute|].
  change (fold_left (normStep false) (EmptyString :: s :: rest) [])
    with (fold_left (normStep false) (s :: rest)
            (normStep false [] EmptyString)).
  rewrite normStep_empty, fold_normStep_push by done.
  by rewrite app_nil_r, rev_involutive.
Qed.

Lemma segments_rooted segs :
  Forall plain segs → segments (sep +:+ unsplit segs) = segs.
Proof.
  intros Hsegs. unfold segments. rewrite split_rooted by done.
  rewrite filter_cons_False by (by intros ?).
  destruct segs as [|s rest].
  - by rewrite filter_cons_False by (by intros ?).
  - induction Hsegs as [|seg segs (Hne & _) _ IH]; [done|].
    by rewrite filter_cons_True, IH.
Qed.

Lemma isAbsolute_rooted s : isAbsolute (sep +:+ s) = true.
Proof. reflexivity. Qed.

Lemma isAbsolute_app a b : isAbsolute a = true → isAbsolute (a +:+ b) = true.
Proof. by destruct a. Qed.

(** From an absolute working directory, [resolve] gives a rooted path of
    plain segments. *)
Lemma resolve_rooted cwd p :
  isAbsolute cwd = true →
  ∃ segs, Forall plain segs ∧ resolve cwd p = sep +:+ unsplit segs.
Proof.
  intros Hcwd. unfold resolve.
  set (full := if isAbsolute p then p
               else if bool_decide (p = EmptyString) then cwd
               else cwd +:+ sep +:+ p).
  assert (isAbsolute full = true) as Habs.
  { unfold full. destruct (isAbsolute p) eqn:Hp; [done|].
    case_bool_decide; [done|]. by apply isAbsolute_app. }
  rewrite Habs. exists (normSegments false full).
  split; [apply normSegments_plain|done].
Qed.

Lemma resolve_of_rooted cwd segs :
  Forall plain segs →
  resolve cwd (sep +:+ unsplit segs) = sep +:+ unsplit segs.
Proof.
  intros Hsegs. unfold resolve. rewrite !isAbsolute_rooted. cbn [negb].
  by rewrite normSegments_rooted.
Qed.

Lemma dropCommon_spec xs ys :
  ∃ common, xs = common ++ fst (dropCommon xs ys) ∧
            ys = common ++ snd (dropCommon xs ys) ∧
            (fst (dropCommon xs ys) = [] ↔ xs `prefix_of` ys).
Proof.
  revert ys. induction xs as [|x xs IH]; intros ys.
  - exists []. cbn. repeat split; try done. intros _. by exists ys.
  - destruct ys as [|y ys].
    + exists []. cbn. repeat split; try done.
      intros [k Hk]. by destruct k.
    + cbn [dropCommon]. case_bool_decide as E.
      * subst y. destruct (IH ys) as (common & Hx & Hy & Hiff).
        exists (x :: common). cbn. rewrite <- Hx, <- Hy.
        repeat split; try done.
        -- intros H0. apply Hiff in H0. by apply prefix_cons.
        -- intros H0. apply Hiff. by apply prefix_cons_inv_2 in H0.
      * exists []. cbn. repeat split; try done.
        intros H0. by apply prefix_cons_inv_1 in H0.
Qed.

Lemma prefix_cons a s1 b s2 :
  String.prefix (String a s1) (String b s2) =
  if Ascii.ascii_dec a b then String.prefix s1 s2 else false.
Proof. reflexivity. Qed.

Lemma prefix_nil s : String.prefix EmptyString s = true.
Proof. by destruct s. Qed.

(** Whether a joined path starts with two dots is decided by its first
    segment. *)
Lemma prefix_dots_unsplit seg rest :
  String.prefix ".." (unsplit (seg :: rest)) = String.prefix ".." seg.
Proof.
  destruct rest as [|seg' rest]; [done|]. cbn [unsplit].
  generalize (unsplit (seg' :: rest)). intros t.
  unfold sep, str1. rewrite (append_cons slash), append_nil_l.
  destruct seg as [|c1 [|c2 seg]].
  - rewrite append_nil_l. reflexivity.
  - rewrite append_cons, append_nil_l, !prefix_cons.
    destruct (Ascii.ascii_dec "." c1); reflexivity.
  - rewrite !append_cons, !prefix_cons.
    destruct (Ascii.ascii_dec "." c1); [|done].
    destruct (Ascii.ascii_dec "." c2); [|done].
    by rewrite !prefix_nil.
Qed.

End PathFacts.

(** ** The task runner and the dispatch *)

Section WorkerFacts.

Context {W : Type} `{Host W}.

Local Abbreviation M := (M W).
Local Abbreviation State := (State W).

Lemma sameStage_refl (st : State) : sameStage st st.
Proof. by repeat split. Qed.

Lemma sameStage_trans (st1 st2 st3 : State) :
  sameStage st1 st2 → sameStage st2 st3 → sameStage st1 st3.
Proof.
  intros (?&?&?&?&?&?) (?&?&?&?&?&?). repeat split; congruence.
Qed.

Lemma offstage_ret {A} (a : A) : offstage (ret a : M A).
Proof. intros st. apply sameStage_refl. Qed.

Lemma offstage_throw {A} e : offstage (throw e : M A).
Proof. intros st. apply sameStage_refl. Qed.

Lemma offstage_bind {A B} (m : M A) (k : A → M B) :
  offstage m → (∀ a, offstage (k a)) → offstage (bind m k).
Proof.
  intros Hm Hk st. unfold bind. specialize (Hm st).
  destruct (m st) as [st1 [a|e]]; cbn in *; [|done].
  eapply sameStage_trans; [exact Hm|]. apply Hk.
Qed.

Lemma offstage_catch {A} (m : M A) (handler : Error → M A) :
  offstage m → (∀ e, offstage (handler e)) → offstage (catch m handler).
Proof.
  intros Hm Hh st. unfold catch. specialize (Hm st).
  destruct (m st) as [st1 [a|e]]; cbn in *; [done|].
  eapply sameStage_trans; [exact Hm|]. apply Hh.
Qed.

Lemma offstage_sys (call : W → W * option Error) : offstage (sys call).
Proof.
  intros st. unfold sys. destruct (call (world st)) as [w r].
  by repeat split.
Qed.

Lemma offstage_sysv {A} (call : W → W * outcome A) : offstage (sysv call).
Proof.
  intros st. unfold sysv. destruct (call (world st)) as [w r].
  by repeat split.
Qed.

Lemma offstage_mkdirpFrom dirs dir : offstage (mkdirpFrom dir dirs).
Proof.
  revert dir. induction dirs as [|d dirs IH]; intros dir; cbn [mkdirpFrom].
  - apply offstage_ret.
  - apply offstage_bind; [|intros _; apply IH].
    apply offstage_catch; [apply offstage_sys|].
    intros e. case_match; [apply offstage_throw | apply offstage_ret].
Qed.

Lemma offstage_mkdirp dirs : offstage (mkdirp dirs).
Proof.
  apply offstage_bind; [apply offstage_mkdirpFrom|].
  intros _. apply offstage_ret.
Qed.

Lemma offstage_ensureValidPath filepath : offstage (ensureValidPath filepath).
Proof.
  unfold ensureValidPath. case_match; [apply offstage_throw|apply offstage_ret].
Qed.

Lemma offstage_fetchArtifact name dataInfo type config dirs :
  offstage (fetchArtifact name dataInfo type config dirs).
Proof.
  unfold fetchArtifact.
  repeat (first [ apply offstage_bind; [|intros ?]
                | apply offstage_sysv | apply offstage_sys
                | apply offstage_ret ]).
Qed.

Lemma offstage_saveArtifact filepath name backendName config :
  offstage (saveArtifact filepath name backendName config).
Proof.
  unfold saveArtifact.
  apply offstage_bind; [apply offstage_sysv|intros client].
  apply offstage_bind; [|intros stream].
  { intros st. cbn beta.
    destruct (createReadStream filepath (world st)) as [w s].
    by repeat split. }
  apply offstage_bind; [apply offstage_sysv|intros d]. apply offstage_ret.
Qed.

(** [onTaskComplete] sends one COMPLETE with the data it was given and
    takes one off the counter. *)
Lemma onTaskComplete_eq self data (st : State) :
  onTaskComplete self data st =
  (set_heap (alter (addCount (-1)) self (heap st))
     (set_sent (sent st ++ [(ownID (heap st !!! self), COMPLETE data)]) st),
   Returned tt).
Proof. reflexivity. Qed.

Lemma runTask_eq self (fn : M Value) (st : State) :
  runTask self fn st =
  match fn st with
  | (st1, Returned v) => onTaskComplete self [VNum 0; v] st1
  | (st1, Thrown e) =>
      onTaskComplete self [VNum 1; VUndef]
        (set_console (console st1 ++ [e]) st1)
  end.
Proof.
  unfold runTask, bind, catch, ret, update.
  by destruct (fn st) as [st1 [v|e]].
Qed.


Lemma addCount_back (s : Session) : addCount (-1) (addCount 1 s) = s.
Proof.
  destruct s as [i c p]. unfold addCount. cbn. f_equal. lia.
Qed.

Lemma alter_addCount_back self (h : list Session) :
  alter (addCount (-1)) self (alter (addCount 1) self h) = h.
Proof.
  revert self. induction h as [|s h IH]; intros [|self]; cbn; try done.
  - by rewrite addCount_back.
  - f_equal. apply IH.
Qed.

Lemma lookup_total_alter_self (f : Session → Session) self (h : list Session) s :
  h !! self = Some s → alter f self h !!! self = f s.
Proof.
  intros Hs. apply list_lookup_total_correct.
  by rewrite list_lookup_alter_eq, Hs.
Qed.

Lemma ownID_alter (f : Session → Session) self (h : list Session) :
  (∀ s, ownID (f s) = ownID s) →
  ownID (alter f self h !!! self) = ownID (h !!! self).
Proof.
  intros Hf. destruct (h !! self) as [s|] eqn:Hs.
  - rewrite (lookup_total_alter_self f self h s Hs).
    by rewrite Hf, (list_lookup_total_correct _ _ _ Hs).
  - rewrite !list_lookup_total_alt, list_lookup_alter_eq, Hs. done.
Qed.

Lemma offstage_update (f : State → State) :
  (∀ st, sameStage st (f st)) → offstage (update f).
Proof. intros Hf st. apply Hf. Qed.

Lemma offstage_detach job : offstage (detach job : M unit).
Proof. apply offstage_update. intros st. by repeat split. Qed.

(** A task off the stage, run by [runTask]: one report, one off the
    counter, nothing thrown. *)
Lemma runTask_offstage self (fn : M Value) (st : State) :
  offstage fn →
  snd (runTask self fn st) = Returned tt ∧
  sessions (fst (runTask self fn st)) = sessions st ∧
  procs (fst (runTask self fn st)) = procs st ∧
  heap (fst (runTask self fn st)) = alter (addCount (-1)) self (heap st) ∧
  ∃ data, sent (fst (runTask self fn st)) =
          sent st ++ [(ownID (heap st !!! self), COMPLETE data)].
Proof.
  intros Hfn. rewrite runTask_eq. specialize (Hfn st).
  destruct (fn st) as [st1 [v|e]]; destruct Hfn as (Hh & Hs & Hp & Ht & _);
    cbn in *; rewrite Hh, Ht; eauto 10.
Qed.

Lemma sessionOnMessage_entered self msg (st : State) :
  sessionOnMessage self msg st =
  match request msg with
  | RUN data =>
      match parseCommand data with
      | cmd :: opts =>
          (pid <- spawn self cmd opts ;; setThis self (setSubprocess pid))
      | [] => throw TypeError
      end
  | KILL =>
      (s <- this self ;;
       match subprocess s with Some pid => kill pid | None => ret tt end)
  | ADD_ARTIFACT name dataInfo type config =>
      (mkdirp ["artifacts"; name] ;;
       getStorageAdapters ;;
       runTask self (fetchArtifact name dataInfo type (orEmptyObject config)
                       ["artifacts"; name]))
  | SAVE_ARTIFACT filepath name backendName config =>
      (getStorageAdapters ;;
       runTask self (saveArtifact filepath name backendName
                       (orEmptyObject config)))
  | ADD_FILE filepath content =>
      runTask self
        (ensureValidPath filepath ;;
         detach (WriteFile filepath content) ;;
         ret VUndef)
  | SET_ENV name value =>
      runTask self
        (update (λ st, set_env (<[name := value]> (env st)) st) ;;
         ret VUndef)
  | REMOVE_FILE filepath =>
      runTask self
        (ensureValidPath filepath ;;
         sys (fsp_unlink filepath) ;;
         ret VUndef)
  | OTHER _ _ => onTaskComplete self [VNum 2]
  end (entered self st).
Proof. reflexivity. Qed.

Lemma completed_from_entered self (st st' : State) data :
  sessions st' = sessions (entered self st) →
  procs st' = procs (entered self st) →
  heap st' = alter (addCount (-1)) self (heap (entered self st)) →
  sent st' = sent (entered self st) ++
             [(ownID (heap (entered self st) !!! self), COMPLETE data)] →
  sessions st' = sessions st ∧ Dispatch self st st' (Returned tt).
Proof.
  cbn. intros Hs Hp Hh Ht. split; [done|].
  apply (DispatchCompleted _ _ _ data); [|done|].
  - by rewrite Hh, alter_addCount_back.
  - rewrite Ht. by rewrite ownID_alter.
Qed.

Lemma runTask_Dispatch self (fn : M Value) (st : State) :
  offstage fn →
  sessions (fst (runTask self fn (entered self st))) = sessions st ∧
  Dispatch self st (fst (runTask self fn (entered self st)))
                   (snd (runTask self fn (entered self st))).
Proof.
  intros Hfn.
  destruct (runTask_offstage self fn (entered self st) Hfn)
    as (-> & Hs & Hp & Hh & data & Ht).
  by eapply completed_from_entered.
Qed.

Lemma thrown_Dispatch self (st st1 : State) e :
  sameStage (entered self st) st1 →
  sessions st1 = sessions st ∧ Dispatch self st st1 (Thrown e).
Proof.
  intros (Hh & Hs & Hp & Ht & _). cbn in *. split; [done|].
  by apply DispatchThrown.
Qed.

(** After a prelude off the stage, either the prelude threw or the rest
    runs from a state with the same stage. *)
Lemma prelude_Dispatch {A} self (m : M A) (k : A → M unit) (st st1 : State) :
  offstage m →
  sameStage (entered self st) st1 →
  (∀ a st2, sameStage (entered self st) st2 →
     sessions (fst (k a st2)) = sessions st ∧
     Dispatch self st (fst (k a st2)) (snd (k a st2))) →
  sessions (fst (bind m k st1)) = sessions st ∧
  Dispatch self st (fst (bind m k st1)) (snd (bind m k st1)).
Proof.
  intros Hm H1 Hk. unfold bind. specialize (Hm st1).
  destruct (m st1) as [st2 [a|e]]; cbn [fst snd] in *.
  - apply Hk. by eapply sameStage_trans.
  - apply thrown_Dispatch. by eapply sameStage_trans.
Qed.

Lemma runTask_after_prelude self (fn : M Value) (st st1 : State) :
  offstage fn → sameStage (entered self st) st1 →
  sessions (fst (runTask self fn st1)) = sessions st ∧
  Dispatch self st (fst (runTask self fn st1)) (snd (runTask self fn st1)).
Proof.
  intros Hfn (Hh & Hs & Hp & Ht & _).
  destruct (runTask_offstage self fn st1 Hfn)
    as (-> & Hs' & Hp' & Hh' & data & Ht').
  apply (completed_from_entered self st _ data); congruence.
Qed.

(** Every call of the session's [onMessage] is one of the four cases of
    [Dispatch], and it leaves the client's table alone. *)
Lemma sessionOnMessage_Dispatch self msg (st : State) :
  sessions (fst (sessionOnMessage self msg st)) = sessions st ∧
  Dispatch self st (fst (sessionOnMessage self msg st))
                   (snd (sessionOnMessage self msg st)).
Proof.
  rewrite sessionOnMessage_entered.
  destruct (request msg) as
    [data| |name dataInfo type config|filepath name backendName config
    |filepath content|name value|filepath|kind data].
  - (* RUN *)
    destruct (parseCommand data) as [|cmd opts].
    { apply thrown_Dispatch, sameStage_refl. }
    unfold bind, spawn, get, bind. cbn [world entered set_heap].
    destruct (spawn_throws cmd opts (world st)) as [e|].
    { apply thrown_Dispatch, sameStage_refl. }
    cbn. split; [done|]. by apply (DispatchSpawned _ _ _ cmd opts).
  - (* KILL *)
    unfold bind, this, get. cbn [fst snd].
    split.
    { by destruct (subprocess _). }
    assert (subprocess (heap (entered self st) !!! self)
            = subprocess (heap st !!! self)) as E.
    { cbn. destruct (heap st !! self) as [s|] eqn:Hs.
      - by rewrite (lookup_total_alter_self _ _ _ _ Hs),
          (list_lookup_total_correct _ _ _ Hs).
      - by rewrite !list_lookup_total_alt, list_lookup_alter_eq, Hs. }
    rewrite E.
    destruct (subprocess (heap st !!! self)) as [pid|] eqn:Hsub; cbn;
      apply DispatchKill; by rewrite ?Hsub.
  - (* ADD_ARTIFACT *)
    apply prelude_Dispatch;
      [apply offstage_mkdirp|apply sameStage_refl|]. intros _ st1 H1.
    apply prelude_Dispatch; [apply offstage_sys|done|]. intros _ st2 H2.
    by apply runTask_after_prelude; [apply offstage_fetchArtifact|].
  - (* SAVE_ARTIFACT *)
    apply prelude_Dispatch;
      [apply offstage_sys|apply sameStage_refl|]. intros _ st1 H1.
    by apply runTask_after_prelude; [apply offstage_saveArtifact|].
  - (* ADD_FILE *)
    apply runTask_Dispatch.
    apply offstage_bind; [apply offstage_ensureValidPath|intros _].
    apply offstage_bind; [apply offstage_detach|intros _].
    apply offstage_ret.
  - (* SET_ENV *)
    apply runTask_Dispatch.
    apply offstage_bind; [|intros _; apply offstage_ret].
    apply offstage_update. intros st0. by repeat split.
  - (* REMOVE_FILE *)
    apply runTask_Dispatch.
    apply offstage_bind; [apply offstage_ensureValidPath|intros _].
    apply offstage_bind; [apply offstage_sys|intros _].
    apply offstage_ret.
  - (* no branch *)
    rewrite onTaskComplete_eq. cbn [fst snd].
    by apply (completed_from_entered self st _ [VNum 2]).
Qed.

(** ** The client and the reachable states *)

Lemma clientOnMessage_eq msg (st : State) :
  clientOnMessage msg st =
  match sessionOnMessage (target st (sessionID msg)) msg
          (prepared st (sessionID msg)) with
  | (st1, Returned _) => evict (sessionID msg) st1
  | (st1, Thrown e) => (st1, Thrown e)
  end.
Proof.
  unfold clientOnMessage, target, prepared, evict, bind at 1, get at 1.
  destruct (sessions st !! sessionID msg) as [self|];
    cbn [default from_option id].
  - unfold bind at 1, ret at 1. unfold bind at 1.
    destruct (sessionOnMessage self msg st) as [st1 [[]|e]]; [|done].
    unfold bind, get, this. destruct (sessions st1 !! sessionID msg); [|done].
    cbn. by case_bool_decide.
  - unfold bind at 1. unfold allocSession at 1. unfold bind, get, update, ret.
    cbn [length heap sessions set_heap].
    match goal with |- context [sessionOnMessage ?s msg ?x] =>
      destruct (sessionOnMessage s msg x) as [st1 [[]|e]] end; [|done].
    unfold this, get. destruct (sessions st1 !! sessionID msg); [|done].
    cbn. by case_bool_decide.
Qed.

Lemma consistent_ext (st st' : State) :
  heap st' = heap st → sessions st' = sessions st → procs st' = procs st →
  consistent st → consistent st'.
Proof.
  intros Hh Hs Hp [T O C]. split; rewrite ?Hh, ?Hs, ?Hp; auto.
Qed.

Lemma initial_consistent (w : W) : consistent (initial w).
Proof.
  split; cbn.
  - intros sid self Hs. by rewrite lookup_empty in Hs.
  - by intros pid p Hp.
  - by intros self s Hs.
Qed.

Lemma runningOf_app self ps qs :
  runningOf self (ps ++ qs) = (runningOf self ps + runningOf self qs)%nat.
Proof. unfold runningOf. by rewrite filter_app, length_app. Qed.

Lemma runningOf_cons self p ps :
  runningOf self (p :: ps) =
  ((if decide (running p = true ∧ owner p = self) then 1 else 0)
   + runningOf self ps)%nat.
Proof. unfold runningOf. rewrite filter_cons. by case_decide. Qed.

Lemma runningOf_none self ps :
  (∀ pid p, ps !! pid = Some p → owner p ≠ self) → runningOf self ps = 0%nat.
Proof.
  induction ps as [|p ps IH]; intros Hno; [done|].
  rewrite runningOf_cons, IH.
  - rewrite decide_False; [done|]. intros [_ E]. by apply (Hno 0%nat p).
  - intros pid q Hq. by apply (Hno (S pid) q).
Qed.

Lemma runningOf_addKill self pid ps :
  runningOf self (alter addKill pid ps) = runningOf self ps.
Proof.
  revert pid. induction ps as [|p ps IH]; intros [|pid]; try done.
  - change (alter addKill 0%nat (p :: ps)) with (addKill p :: ps).
    by rewrite !runningOf_cons.
  - change (alter addKill (S pid) (p :: ps)) with (p :: alter addKill pid ps).
    by rewrite !runningOf_cons, IH.
Qed.

Lemma runningOf_markExited self pid p ps :
  ps !! pid = Some p → running p = true →
  runningOf self ps =
  ((if decide (owner p = self) then 1 else 0)
   + runningOf self (alter markExited pid ps))%nat.
Proof.
  revert pid. induction ps as [|q ps IH]; intros [|pid] Hp Hr; try done.
  - cbn in Hp. assert (q = p) as -> by congruence.
    change (alter markExited 0%nat (p :: ps)) with (markExited p :: ps).
    rewrite !runningOf_cons. cbn [running owner markExited].
    rewrite (decide_False (P := false = true ∧ _)) by (by intros [? _]).
    destruct (decide (owner p = self)) as [E|E];
      [rewrite decide_True by done | rewrite decide_False by (by intros [_ ?])];
      done.
  - cbn in Hp.
    change (alter markExited (S pid) (q :: ps))
      with (q :: alter markExited pid ps).
    rewrite !runningOf_cons, (IH pid Hp Hr). lia.
Qed.

End WorkerFacts.

Section ReachableFacts.

Context {W : Type} `{Host W}.

Local Abbreviation State := (State W).

(** The shape shared by every change of the stage: one session object is
    altered, keeping its key. *)
Lemma consistent_alter (g : Session → Session) self (st st' : State) :
  consistent st →
  heap st' = alter g self (heap st) →
  (∀ s, ownID (g s) = ownID s) →
  sessions st' = sessions st →
  (∀ pid p, procs st' !! pid = Some p → (owner p < length (heap st))%nat) →
  (∀ r s, heap st !! r = Some s →
     Z.of_nat (runningOf r (procs st'))
     ≤ activeMsgCount (if decide (self = r) then g s else s)) →
  consistent st'.
Proof.
  intros [T O C] Hh Hg Hs Ho Hc. split.
  - intros sid r Hr. rewrite Hs in Hr. destruct (T sid r Hr) as (s & Hsr & Hid).
    rewrite Hh, list_lookup_alter. case_decide as E.
    + subst r. rewrite Hsr. exists (g s). by rewrite Hg.
    + by exists s.
  - intros pid p Hp. rewrite Hh, length_alter. by apply (Ho pid).
  - intros r s'. rewrite Hh, list_lookup_alter. intros Hr.
    case_decide as E.
    + subst r. destruct (heap st !! self) as [s|] eqn:Hsr; [|done].
      cbn in Hr. injection Hr as <-.
      specialize (Hc self s Hsr). by rewrite decide_True in Hc.
    + specialize (Hc r s' Hr). by rewrite decide_False in Hc.
Qed.

Lemma count_nonneg (st : State) self s :
  consistent st → heap st !! self = Some s → 0 ≤ activeMsgCount s.
Proof. intros [_ _ C] Hs. specialize (C self s Hs). lia. Qed.

Lemma prepared_consistent (st : State) sid :
  consistent st → consistent (prepared st sid).
Proof.
  intros Hc. unfold prepared.
  destruct (sessions st !! sid) as [self|] eqn:Hsid; [done|].
  destruct Hc as [T O C]. split; cbn -[runningOf].
  - intros sid' r. rewrite lookup_insert. case_decide as E.
    + intros [= <-]. subst sid'. exists (newSession sid).
      split; [|done]. by rewrite lookup_app_r, Nat.sub_diag.
    + intros Hr. destruct (T sid' r Hr) as (s & Hs & Hid).
      exists s. split; [|done]. by apply lookup_app_l_Some.
  - intros pid p Hp. rewrite length_app. specialize (O pid p Hp). lia.
  - intros r s Hr. apply lookup_app_Some in Hr as [Hr|[Hge Hr]].
    + by apply C.
    + apply list_lookup_singleton_Some in Hr as [Hz <-].
      rewrite runningOf_none; [done|].
      intros pid p Hp. specialize (O pid p Hp). lia.
Qed.

Lemma target_prepared (st : State) sid :
  consistent st →
  sessions (prepared st sid) !! sid = Some (target st sid) ∧
  (target st sid < length (heap (prepared st sid)))%nat.
Proof.
  intros [T _ _]. unfold target, prepared.
  destruct (sessions st !! sid) as [self|] eqn:Hsid; cbn.
  - split; [done|]. destruct (T sid self Hsid) as (s & Hs & _).
    by eapply lookup_lt_Some.
  - rewrite lookup_insert_eq, length_app. cbn. split; [done|lia].
Qed.

Lemma Dispatch_consistent self (st st' : State) r :
  consistent st → (self < length (heap st))%nat →
  sessions st' = sessions st → Dispatch self st st' r → consistent st'.
Proof.
  intros Hc Hself Hs HD. pose proof Hc as [T O C].
  destruct HD as [data Hh Hp Ht|cmd opts Hh Hp Ht|Hh Hp Ht|e Hh Hp Ht].
  - by apply (consistent_ext st).
  - rewrite list_alter_alter_eq in Hh.
    apply (consistent_alter _ self st st' Hc Hh); [done|done|..].
    + intros pid p. rewrite Hp. intros [Hin|[_ Hin]]%lookup_app_Some.
      * by apply (O pid).
      * by apply list_lookup_singleton_Some in Hin as [_ <-].
    + intros r s Hr. rewrite Hp, runningOf_app, runningOf_cons.
      cbn [running owner newProcess]. specialize (C r s Hr).
      unfold runningOf at 2. cbn [filter length list_filter].
      destruct (decide (self = r)) as [->|Hne];
        [rewrite decide_True by done
        |rewrite decide_False by (by intros [_ ?])];
        cbn; lia.
  - apply (consistent_alter _ self st st' Hc Hh); [done|done|..].
    + intros pid p. rewrite Hp. destruct (subprocess _) as [k|]; [|apply O].
      rewrite list_lookup_alter. case_decide; [|apply O].
      destruct (procs st !! k) as [q|] eqn:Hq; [|done].
      intros [= <-]. apply (O k q Hq).
    + intros r s Hr. rewrite Hp. specialize (C r s Hr).
      assert (runningOf r
                match subprocess (heap st !!! self) with
                | Some pid => alter addKill pid (procs st)
                | None => procs st
                end = runningOf r (procs st)) as ->.
      { destruct (subprocess _); [apply runningOf_addKill|done]. }
      case_decide; cbn; lia.
  - apply (consistent_alter _ self st st' Hc Hh); [done|done|..].
    + intros pid p. rewrite Hp. apply O.
    + intros r s Hr. rewrite Hp. specialize (C r s Hr).
      case_decide; cbn; lia.
Qed.

Lemma evict_consistent sid (st : State) :
  consistent st → consistent (fst (evict sid st)).
Proof.
  intros Hc. unfold evict. destruct (sessions st !! sid) as [self|]; [|done].
  case_bool_decide; [|done]. destruct Hc as [T O C]. split; cbn; [|done..].
  intros sid' r [_ Hr]%lookup_delete_Some. by apply T.
Qed.

Lemma top_consistent (m : M W unit) (st : State) :
  consistent (fst (m st)) → consistent (top m st).
Proof.
  unfold top. destruct (m st) as [st1 [[]|e]]; [done|].
  by apply consistent_ext.
Qed.

Lemma offstage_consistent {A} (m : M W A) (st : State) :
  offstage m → consistent st → consistent (fst (m st)).
Proof.
  intros Hm Hc. destruct (Hm st) as (Hh & Hs & Hp & _).
  by apply (consistent_ext st).
Qed.

Lemma offstage_writeFile filepath content :
  offstage (writeFile filepath content).
Proof.
  apply offstage_bind; [apply offstage_mkdirp|intros _; apply offstage_sys].
Qed.

Lemma sendMessage_consistent self reply (st : State) :
  consistent st → consistent (top (sendMessage self reply) st).
Proof. intros Hc. by apply top_consistent, (consistent_ext st). Qed.

(** Every step keeps the state consistent. *)
Lemma step_consistent ev (st : State) :
  consistent st → consistent (step ev st).
Proof.
  intros Hc. destruct ev as [msg|pid code|pid chunk|pid chunk|]; cbn [step].
  - apply top_consistent. rewrite clientOnMessage_eq.
    pose proof (prepared_consistent st (sessionID msg) Hc) as Hc0.
    destruct (target_prepared st (sessionID msg) Hc) as [_ Hlt].
    destruct (sessionOnMessage_Dispatch (target st (sessionID msg)) msg
                (prepared st (sessionID msg))) as [Hs HD].
    destruct (sessionOnMessage _ msg _) as [st1 r]. cbn [fst snd] in *.
    assert (consistent st1) as Hc1 by by eapply Dispatch_consistent.
    destruct r as [[]|e]; [by apply evict_consistent|done].
  - destruct (procs st !! pid) as [p|] eqn:Hp; [|done].
    destruct (running p) eqn:Hr; [|done].
    apply top_consistent. cbn -[runningOf]. pose proof Hc as [T O C].
    eapply (consistent_alter (addCount (-1)) (owner p) st); cbn -[runningOf];
      [done|done|done|done|..].
    + intros k q. rewrite list_lookup_alter. case_decide; [|apply O].
      subst k. rewrite Hp. intros [= <-]. apply (O pid p Hp).
    + intros r s Hs. specialize (C r s Hs).
      rewrite (runningOf_markExited r pid p _ Hp Hr) in C.
      destruct (decide (owner p = r)); cbn; lia.
  - destruct (procs st !! pid); [|done]. by apply sendMessage_consistent.
  - destruct (procs st !! pid); [|done]. by apply sendMessage_consistent.
  - destruct (floating st) as [|[filepath content] rest]; [done|].
    apply top_consistent, offstage_consistent; [apply offstage_writeFile|].
    by apply (consistent_ext st).
Qed.

Lemma exec_consistent evs (st : State) :
  consistent st → consistent (exec evs st).
Proof.
  revert st. induction evs as [|ev evs IH]; intros st Hc; [done|].
  apply IH. by apply step_consistent.
Qed.

Lemma Dispatch_heap self (st st' : State) r :
  Dispatch self st st' r → ∃ g, heap st' = alter g self (heap st).
Proof.
  intros [data Hh _ _|cmd opts Hh _ _|Hh _ _|e Hh _ _].
  - exists id. by rewrite Hh, list_alter_id.
  - rewrite list_alter_alter_eq in Hh. eauto.
  - eauto.
  - eauto.
Qed.

End ReachableFacts.

(** ** Statements about the task runner and about single handlers *)

Section Handlers.

Context {W : Type} `{Host W}.

Local Abbreviation State := (State W).

(** C3. [runTask(fn)] reports exactly once, whatever [fn] does: it returns
    normally, the frames sent are those of [fn] followed by one COMPLETE,
    whose data is [[0, result]] when [fn] returned [result] ([undefined]
    when it returned nothing) and [[1, undefined]] when [fn] threw; the
    error goes to the console and nowhere else; the counter of the session
    loses one. *)
Theorem runTask_reports_once self (fn : M W Value) (st : State) :
  let st1 := fst (fn st) in
  let st2 := fst (runTask self fn st) in
  snd (runTask self fn st) = Returned tt ∧
  sent st2 = sent st1 ++
    [(ownID (heap st1 !!! self),
      COMPLETE match snd (fn st) with
               | Returned result => [VNum 0; result]
               | Thrown _ => [VNum 1; VUndef]
               end)] ∧
  console st2 = console st1 ++
    match snd (fn st) with Returned _ => [] | Thrown err => [err] end ∧
  unhandled st2 = unhandled st1 ∧
  heap st2 = alter (addCount (-1)) self (heap st1) ∧
  sessions st2 = sessions st1 ∧ procs st2 = procs st1 ∧
  world st2 = world st1.
Proof.
  cbn zeta. rewrite runTask_eq.
  destruct (fn st) as [st1 [result|err]]; cbn;
    rewrite ?app_nil_r; by repeat split.
Qed.

(** What a message does to the whole agent, in terms of what the session's
    handler does: the client adds the eviction, and a rejection of the
    handler ends up unhandled. *)
Lemma receive_fields msg (st : State) :
  consistent st →
  let sid := sessionID msg in
  let self := target st sid in
  let r := sessionOnMessage self msg (prepared st sid) in
  let st' := step (Receive msg) st in
  heap st' = heap (fst r) ∧ procs st' = procs (fst r) ∧
  sent st' = sent (fst r) ∧ world st' = world (fst r) ∧
  console st' = console (fst r) ∧ env st' = env (fst r) ∧
  floating st' = floating (fst r) ∧
  unhandled st' =
    unhandled (fst r) ++
    match snd r with Returned _ => [] | Thrown e => [e] end ∧
  sessions st' =
    match snd r with
    | Returned _ =>
        if bool_decide (activeMsgCount (heap (fst r) !!! self) = 0)
        then delete sid (sessions (prepared st sid))
        else sessions (prepared st sid)
    | Thrown _ => sessions (prepared st sid)
    end.
Proof.
  intros Hc sid self r st'. subst st'. cbn [step]. unfold top.
  rewrite clientOnMessage_eq. fold sid self r.
  destruct (target_prepared st sid Hc) as [Htab _]. fold self in Htab.
  destruct (sessionOnMessage_Dispatch self msg (prepared st sid)) as [Hs _].
  fold r in Hs. destruct r as [st1 [[]|e]]; cbn [fst snd] in *.
  - unfold evict. rewrite Hs, Htab.
    case_bool_decide; cbn; rewrite ?app_nil_r, ?Hs; by repeat split.
  - cbn. by repeat split.
Qed.

Lemma ownID_target (st : State) sid :
  consistent st → ownID (heap (prepared st sid) !!! target st sid) = sid.
Proof.
  intros Hc. pose proof (prepared_consistent st sid Hc) as [T _ _].
  destruct (target_prepared st sid Hc) as [Htab _].
  destruct (T _ _ Htab) as (s & Hs & Hid).
  by rewrite (list_lookup_total_correct _ _ _ Hs).
Qed.

Lemma world_prepared (st : State) sid : world (prepared st sid) = world st.
Proof. unfold prepared. by destruct (sessions st !! sid). Qed.

Lemma sent_prepared (st : State) sid : sent (prepared st sid) = sent st.
Proof. unfold prepared. by destruct (sessions st !! sid). Qed.

Lemma procs_prepared (st : State) sid : procs (prepared st sid) = procs st.
Proof. unfold prepared. by destruct (sessions st !! sid). Qed.

Lemma console_prepared (st : State) sid :
  console (prepared st sid) = console st.
Proof. unfold prepared. by destruct (sessions st !! sid). Qed.

Lemma unhandled_prepared (st : State) sid :
  unhandled (prepared st sid) = unhandled st.
Proof. unfold prepared. by destruct (sessions st !! sid). Qed.

Lemma floating_prepared (st : State) sid :
  floating (prepared st sid) = floating st.
Proof. unfold prepared. by destruct (sessions st !! sid). Qed.

(** The handler for a kind that no branch tests. *)
Lemma other_effect self sid kind data (st : State) :
  sessionOnMessage self (Msg sid (OTHER kind data)) st =
  (set_heap (alter (addCount (-1)) self (alter (addCount 1) self (heap st)))
     (set_sent (sent st ++
        [(ownID (alter (addCount 1) self (heap st) !!! self),
          COMPLETE [VNum 2])]) st),
   Returned tt).
Proof. reflexivity. Qed.


(** *** The kinds that always report

    ADD_FILE, SET_ENV, REMOVE_FILE and the kinds without handler return
    normally with exactly one COMPLETE sent and the counter back where it
    was, whatever the host does. *)
Lemma runTask_completes self (fn : M W Value) (st : State) :
  offstage fn →
  let r := runTask self fn (entered self st) in
  snd r = Returned tt ∧ heap (fst r) = heap st ∧
  ∃ data, sent (fst r) = sent st ++ [(ownID (heap st !!! self), COMPLETE data)].
Proof.
  intros Hfn. cbn zeta.
  destruct (runTask_offstage self fn (entered self st) Hfn)
    as (-> & _ & _ & Hh & data & Ht).
  split; [done|]. split.
  - rewrite Hh. cbn. apply alter_addCount_back.
  - exists data. rewrite Ht. cbn. by rewrite ownID_alter.
Qed.

Lemma reporting_kinds self msg (st : State) :
  match request msg with
  | ADD_FILE _ _ | SET_ENV _ _ | REMOVE_FILE _ | OTHER _ _ => True
  | _ => False
  end →
  let r := sessionOnMessage self msg st in
  snd r = Returned tt ∧ heap (fst r) = heap st ∧
  ∃ data, sent (fst r) = sent st ++ [(ownID (heap st !!! self), COMPLETE data)].
Proof.
  intros Hkind. cbn zeta. rewrite sessionOnMessage_entered.
  destruct (request msg) as
    [data| |name dataInfo type config|filepath name backendName config
    |filepath content|name value|filepath|kind data]; try done.
  - apply runTask_completes.
    apply offstage_bind; [apply offstage_ensureValidPath|intros _].
    apply offstage_bind; [apply offstage_detach|intros _].
    apply offstage_ret.
  - apply runTask_completes.
    apply offstage_bind; [|intros _; apply offstage_ret].
    apply offstage_update. intros st0. by repeat split.
  - apply runTask_completes.
    apply offstage_bind; [apply offstage_ensureValidPath|intros _].
    apply offstage_bind; [apply offstage_sys|intros _].
    apply offstage_ret.
  - rewrite onTaskComplete_eq. cbn [fst snd]. cbn.
    split; [done|]. split; [apply alter_addCount_back|].
    exists [VNum 2]. by rewrite ownID_alter.
Qed.

(** *** KILL *)

Lemma kill_effect self sid (st : State) :
  let r := sessionOnMessage self (Msg sid KILL) st in
  snd r = Returned tt ∧
  sent (fst r) = sent st ∧
  heap (fst r) = alter (addCount 1) self (heap st) ∧
  procs (fst r) =
    match subprocess (heap st !!! self) with
    | Some pid => alter addKill pid (procs st)
    | None => procs st
    end ∧
  unhandled (fst r) = unhandled st ∧ console (fst r) = console st ∧
  world (fst r) = world st ∧ floating (fst r) = floating st.
Proof.
  cbn zeta. rewrite sessionOnMessage_entered. cbn [request Msg].
  unfold bind, this, get.
  assert (subprocess (heap (entered self st) !!! self)
          = subprocess (heap st !!! self)) as ->.
  { cbn. destruct (heap st !! self) as [s|] eqn:Hs.
    - by rewrite (lookup_total_alter_self _ _ _ _ Hs),
        (list_lookup_total_correct _ _ _ Hs).
    - by rewrite !list_lookup_total_alt, list_lookup_alter_eq, Hs. }
  by destruct (subprocess (heap st !!! self)).
Qed.

(** Without a child and without a floating promise, only a message can
    change the state. *)
Lemma idle_step ev (st : State) :
  procs st = [] → floating st = [] → isReceive ev = false → step ev st = st.
Proof.
  intros Hp Hf Hev. destruct ev; try done; cbn [step]; by rewrite ?Hp, ?Hf.
Qed.

Lemma idle_exec evs (st : State) :
  procs st = [] → floating st = [] →
  Forall (λ ev, isReceive ev = false) evs → exec evs st = st.
Proof.
  intros Hp Hf Hevs. induction Hevs as [|ev evs Hev _ IH]; [done|].
  cbn. by rewrite idle_step.
Qed.

(** C2. What the KILL branch does, in any consistent state: [kill()] is
    called on the child the session refers to, if it refers to one;
    nothing is thrown; the counter that was incremented on entry stays
    incremented, the session stays in the table, and no frame is sent: the
    branch never calls [onTaskComplete]. *)
Theorem kill_sends_no_report sid (st : State) :
  consistent st →
  let self := target st sid in
  let before := heap (prepared st sid) !!! self in
  let st' := step (Receive (Msg sid KILL)) st in
  sent st' = sent st ∧
  unhandled st' = unhandled st ∧
  procs st' =
    match subprocess before with
    | Some pid => alter addKill pid (procs st)
    | None => procs st
    end ∧
  activeMsgCount (heap st' !!! self) = activeMsgCount before + 1 ∧
  sessions st' !! sid = Some self.
Proof.
  intros Hc self before st'.
  destruct (receive_fields (Msg sid KILL) st Hc)
    as (Hh & Hp & Ht & _ & _ & _ & _ & Hu & Hs).
  fold st' in Hh, Hp, Ht, Hu, Hs. cbn [sessionID Msg] in *. fold self in Hh, Hp, Ht, Hu, Hs.
  destruct (kill_effect self sid (prepared st sid))
    as (Hr & Ht' & Hh' & Hp' & Hu' & _).
  cbn zeta in *. rewrite Hr in *. rewrite Hh' in *.
  destruct (target_prepared st sid Hc) as [Htab Hlt]. fold self in Htab, Hlt.
  apply lookup_lt_is_Some_2 in Hlt as [s Hsome].
  assert (before = s) as Hb by by apply list_lookup_total_correct.
  assert (0 ≤ activeMsgCount s) as Hnn.
  { eapply count_nonneg; [|exact Hsome]. by apply prepared_consistent. }
  assert (activeMsgCount (heap st' !!! self) = activeMsgCount before + 1)
    as Hcount.
  { rewrite Hh, (lookup_total_alter_self _ _ _ _ Hsome), Hb. done. }
  rewrite Ht, Ht', sent_prepared, Hu, Hu', unhandled_prepared, app_nil_r,
    Hp, Hp', procs_prepared.
  repeat split; try done.
  rewrite Hs, <- Hh, Hcount, Hb, bool_decide_eq_false_2 by lia. done.
Qed.

(** C1. A KILL is accepted like every message: it increments the counter.
    But no completion ever follows: whatever happens afterwards, short of
    a further message, the counter stays at one, the session stays in the
    table and no COMPLETE has been sent. *)
Theorem kill_never_completes (w : W) sid evs :
  Forall (λ ev, isReceive ev = false) evs →
  let st := exec evs (step (Receive (Msg sid KILL)) (initial w)) in
  sent st = [] ∧
  heap st = [{| ownID := sid; activeMsgCount := 1; subprocess := None |}] ∧
  sessions st !! sid = Some 0%nat ∧
  unhandled st = [].
Proof.
  intros Hevs st.
  pose proof (initial_consistent w) as Hc.
  pose proof (receive_fields (Msg sid KILL) (initial w) Hc) as HF.
  pose proof (kill_effect (target (initial w) sid) sid
                (prepared (initial w) sid)) as HK.
  cbn zeta in HF, HK. cbn [sessionID Msg] in HF, HK.
  assert (prepared (initial w) sid =
          set_sessions {[sid := 0%nat]}
            (set_heap [newSession sid] (initial w))) as Eprep.
  { unfold prepared. cbn. by rewrite lookup_empty, insert_empty. }
  change (target (initial w) sid) with 0%nat in *.
  destruct HK as (Hr & Ht' & Hh' & Hp' & Hu' & _ & _ & Hf').
  destruct HF as (Hh & Hp & Ht & _ & _ & _ & Hf & Hu & Hs).
  rewrite Hr, ?Hh', ?Hp', ?Ht', ?Hu', ?Hf' in *.
  rewrite Eprep in *. cbn in Hh, Hp, Ht, Hu, Hf, Hs.
  subst st. rewrite idle_exec; [|done..].
  cbn [step]. rewrite Hh, Ht, Hu, Hs.
  by rewrite bool_decide_eq_false_2, lookup_singleton_eq by done.
Qed.

(** *** Eviction *)

Lemma exit_sessions pid code (st : State) :
  sessions (step (ProcExit pid code) st) = sessions st.
Proof.
  cbn [step]. destruct (procs st !! pid) as [p|]; [|done].
  by destruct (running p).
Qed.

Lemma sessions_prepared_ne (st : State) sid sid' :
  sid' ≠ sid → sessions (prepared st sid) !! sid' = sessions st !! sid'.
Proof.
  intros Hne. unfold prepared. destruct (sessions st !! sid); [done|].
  cbn. by rewrite lookup_insert_ne.
Qed.


(** *** RUN and the exit of the child *)

Lemma lookup_alter_ownID (g : Session → Session) self (h : list Session) r s :
  (∀ s, ownID (g s) = ownID s) → h !! r = Some s →
  ∃ s', alter g self h !! r = Some s' ∧ ownID s' = ownID s.
Proof.
  intros Hg Hr. rewrite list_lookup_alter. case_decide as E.
  - subst r. rewrite Hr. exists (g s). by rewrite Hg.
  - by exists s.
Qed.

Lemma Dispatch_heap_ownID self (st st' : State) r :
  Dispatch self st st' r →
  ∃ g, heap st' = alter g self (heap st) ∧ ∀ s, ownID (g s) = ownID s.
Proof.
  intros [data Hh _ _|cmd opts Hh _ _|Hh _ _|e Hh _ _].
  - exists id. by rewrite Hh, list_alter_id.
  - rewrite list_alter_alter_eq in Hh. eauto.
  - eauto.
  - eauto.
Qed.

Lemma Dispatch_procs self (st st' : State) r pid p :
  Dispatch self st st' r → procs st !! pid = Some p →
  ∃ p', procs st' !! pid = Some p' ∧ owner p' = owner p ∧
        running p' = running p ∧ file p' = file p ∧ args p' = args p.
Proof.
  intros [data _ Hp _|cmd opts _ Hp _|_ Hp _|e _ Hp _] Hpid; rewrite Hp.
  - by exists p.
  - exists p. by rewrite (lookup_app_l_Some _ _ _ _ Hpid).
  - destruct (subprocess _) as [k|]; [|by exists p].
    rewrite list_lookup_alter. case_decide as E; [|by exists p].
    subst k. rewrite Hpid. by exists (addKill p).
  - by exists p.
Qed.

(** An event other than its exit leaves a child with its command, its
    owner and its state, and leaves the owner its identifier. *)
Lemma step_keeps ev (st : State) pid p s :
  consistent st → isExitOf pid ev = false →
  procs st !! pid = Some p → heap st !! owner p = Some s →
  ∃ p' s', procs (step ev st) !! pid = Some p' ∧ owner p' = owner p ∧
           running p' = running p ∧ file p' = file p ∧ args p' = args p ∧
           heap (step ev st) !! owner p = Some s' ∧ ownID s' = ownID s.
Proof.
  intros Hc Hev Hp Hs.
  destruct ev as [msg|k code|k chunk|k chunk|].
  - destruct (receive_fields msg st Hc) as (Hh & Hpr & _).
    rewrite Hh, Hpr.
    destruct (sessionOnMessage_Dispatch (target st (sessionID msg)) msg
                (prepared st (sessionID msg))) as [_ HD].
    rewrite <- (procs_prepared st (sessionID msg)) in Hp.
    destruct (Dispatch_procs _ _ _ _ _ _ HD Hp) as (p' & Hp' & Ho & Hrest).
    destruct (Dispatch_heap_ownID _ _ _ _ HD) as (g & -> & Hg).
    assert (heap (prepared st (sessionID msg)) !! owner p = Some s) as Hs'.
    { unfold prepared. destruct (sessions st !! sessionID msg); [done|].
      by apply lookup_app_l_Some. }
    destruct (lookup_alter_ownID g (target st (sessionID msg)) _ _ _ Hg Hs')
      as (s' & Hs'' & Hid).
    destruct Hrest as (Hr' & Hf' & Ha'). exists p', s'. by repeat split.
  - cbn in Hev. apply bool_decide_eq_false in Hev. cbn [step].
    destruct (procs st !! k) as [q|] eqn:Hq; [|by exists p, s].
    destruct (running q); [|by exists p, s].
    cbn. rewrite list_lookup_alter_ne by done.
    destruct (lookup_alter_ownID (addCount (-1)) (owner q) _ _ _
                (λ _, eq_refl) Hs) as (s' & Hs' & Hid).
    by exists p, s'.
  - cbn [step]. destruct (procs st !! k); by exists p, s.
  - cbn [step]. destruct (procs st !! k); by exists p, s.
  - cbn [step]. destruct (floating st) as [|[filepath content] rest];
      [by exists p, s|].
    unfold top.
    destruct (offstage_writeFile filepath content (set_floating rest st))
      as (Hh & _ & Hpr & _).
    destruct (writeFile filepath content (set_floating rest st))
      as [st1 [[]|e]]; cbn in *; rewrite Hh, Hpr; by exists p, s.
Qed.

Lemma exec_keeps evs (st : State) pid p s :
  consistent st → Forall (λ ev, isExitOf pid ev = false) evs →
  procs st !! pid = Some p → heap st !! owner p = Some s →
  ∃ p' s', procs (exec evs st) !! pid = Some p' ∧ owner p' = owner p ∧
           running p' = running p ∧ file p' = file p ∧ args p' = args p ∧
           heap (exec evs st) !! owner p = Some s' ∧ ownID s' = ownID s.
Proof.
  intros Hc Hevs. revert st p s Hc.
  induction Hevs as [|ev evs Hev _ IH]; intros st p s Hc Hp Hs.
  { by exists p, s. }
  destruct (step_keeps ev st pid p s Hc Hev Hp Hs)
    as (p1 & s1 & Hp1 & Ho1 & Hr1 & Hf1 & Ha1 & Hs1 & Hid1).
  rewrite <- Ho1 in Hs1.
  destruct (IH (step ev st) p1 s1 (step_consistent ev st Hc) Hp1 Hs1)
    as (p2 & s2 & Hp2 & Ho2 & Hr2 & Hf2 & Ha2 & Hs2 & Hid2).
  exists p2, s2. change (exec (ev :: evs) st) with (exec evs (step ev st)).
  rewrite Ho1 in *. repeat split; congruence.
Qed.

Lemma exit_effect pid code p (st : State) :
  procs st !! pid = Some p → running p = true →
  let st' := step (ProcExit pid code) st in
  sent st' = sent st ++ [(ownID (heap st !!! owner p), COMPLETE [code])] ∧
  heap st' = alter (addCount (-1)) (owner p) (heap st) ∧
  procs st' = alter markExited pid (procs st) ∧
  console st' = console st ∧ unhandled st' = unhandled st ∧
  world st' = world st ∧ sessions st' = sessions st.
Proof. intros Hp Hr. cbn. by rewrite Hp, Hr. Qed.

Lemma run_effect self sid data cmd opts (st : State) :
  parseCommand data = cmd :: opts →
  spawn_throws cmd opts (world st) = None →
  let r := sessionOnMessage self (Msg sid (RUN data)) st in
  snd r = Returned tt ∧
  procs (fst r) = procs st ++ [newProcess self cmd opts] ∧
  heap (fst r) =
    alter (setSubprocess (length (procs st))) self
      (alter (addCount 1) self (heap st)) ∧
  sent (fst r) = sent st ∧ unhandled (fst r) = unhandled st ∧
  console (fst r) = console st ∧ world (fst r) = world st.
Proof.
  intros Hparse Hspawn. cbn zeta. rewrite sessionOnMessage_entered.
  cbn [request Msg]. rewrite Hparse.
  unfold bind, spawn, get, bind. cbn [world entered set_heap].
  by rewrite Hspawn.
Qed.

Lemma parseCommand_cons data : ∃ cmd opts, parseCommand data = cmd :: opts.
Proof.
  rewrite parseCommand_tokenize. unfold tokenize.
  pose proof (tokens_length None EmptyString data) as Hlen.
  destruct (tokens None EmptyString data) as [|cmd opts]; [done|eauto].
Qed.


(** *** The file operations *)

(** [mkdirp]: a directory that exists already is passed over, any other
    failure ends the chain with that error. *)
Lemma mkdirpFrom_cons dir d more (st : State) :
  mkdirpFrom dir (d :: more) st =
  let next := Path.join [dir; d] in
  match fsp_mkdir next (world st) with
  | (w, None) => mkdirpFrom next more (set_world w st)
  | (w, Some e) =>
      if bool_decide (errorCode e = Some "EEXIST")
      then mkdirpFrom next more (set_world w st)
      else (set_world w st, Thrown e)
  end.
Proof.
  cbn [mkdirpFrom]. unfold bind, catch, sys. cbn zeta.
  destruct (fsp_mkdir _ (world st)) as [w [e|]]; [|done].
  destruct (decide (errorCode e = Some "EEXIST")) as [E|E].
  - by rewrite bool_decide_eq_false_2, bool_decide_eq_true_2 by auto.
  - by rewrite bool_decide_eq_true_2, bool_decide_eq_false_2 by auto.
Qed.

Lemma add_file_effect self sid filepath content (st : State) :
  let r := sessionOnMessage self (Msg sid (ADD_FILE filepath content)) st in
  snd r = Returned tt ∧
  world (fst r) = world st ∧
  unhandled (fst r) = unhandled st ∧
  if isOutsideWorkspace filepath then
    sent (fst r) =
      sent st ++ [(ownID (heap st !!! self), COMPLETE [VNum 1; VUndef])] ∧
    floating (fst r) = floating st ∧
    console (fst r) =
      console st ++
      [PlainError ("Cannot edit files outside workspace: " +:+ filepath)]
  else
    sent (fst r) =
      sent st ++ [(ownID (heap st !!! self), COMPLETE [VNum 0; VUndef])] ∧
    floating (fst r) = floating st ++ [WriteFile filepath content] ∧
    console (fst r) = console st.
Proof.
  cbn zeta. rewrite sessionOnMessage_entered. cbn [request Msg].
  rewrite runTask_eq. unfold bind, ensureValidPath.
  destruct (isOutsideWorkspace filepath); cbn;
    rewrite ownID_alter by done; by repeat split.
Qed.

Lemma remove_file_effect self sid filepath (st : State) :
  let r := sessionOnMessage self (Msg sid (REMOVE_FILE filepath)) st in
  snd r = Returned tt ∧
  unhandled (fst r) = unhandled st ∧
  if isOutsideWorkspace filepath then
    world (fst r) = world st ∧
    sent (fst r) =
      sent st ++ [(ownID (heap st !!! self), COMPLETE [VNum 1; VUndef])]
  else
    world (fst r) = fst (fsp_unlink filepath (world st)) ∧
    sent (fst r) =
      sent st ++
      [(ownID (heap st !!! self),
        COMPLETE [VNum (match snd (fsp_unlink filepath (world st)) with
                        | Some _ => 1
                        | None => 0
                        end);
                  VUndef])].
Proof.
  cbn zeta. rewrite sessionOnMessage_entered. cbn [request Msg].
  rewrite runTask_eq. unfold bind, ensureValidPath, sys.
  destruct (isOutsideWorkspace filepath); cbn.
  - rewrite ownID_alter by done. by repeat split.
  - destruct (fsp_unlink filepath (world st)) as [w [e|]]; cbn;
      rewrite ownID_alter by done; by repeat split.
Qed.

(** The containment check comes before every change of the disk: a path
    that the check refuses leaves the world as it was and starts no
    write. *)
Lemma refused_path_changes_nothing self sid filepath content (st : State) :
  isOutsideWorkspace filepath = true →
  world (fst (sessionOnMessage self (Msg sid (ADD_FILE filepath content)) st))
    = world st ∧
  floating (fst (sessionOnMessage self (Msg sid (ADD_FILE filepath content)) st))
    = floating st ∧
  world (fst (sessionOnMessage self (Msg sid (REMOVE_FILE filepath)) st))
    = world st.
Proof.
  intros Hout.
  destruct (add_file_effect self sid filepath content st) as (_ & Hw & _ & Ha).
  destruct (remove_file_effect self sid filepath st) as (_ & _ & Hr).
  rewrite Hout in Ha, Hr. cbn zeta in *.
  destruct Ha as (_ & Hf & _), Hr as (Hw' & _). done.
Qed.

Lemma settle_effect filepath content rest (st : State) :
  floating st = WriteFile filepath content :: rest →
  let r := writeFile filepath content (set_floating rest st) in
  let st' := step Settle st in
  sent st' = sent st ∧ console st' = console st ∧
  world st' = world (fst r) ∧
  unhandled st' =
    unhandled st ++ match snd r with Returned _ => [] | Thrown e => [e] end.
Proof.
  intros Hf. cbn [step]. rewrite Hf. unfold top. cbn zeta.
  pose proof (offstage_writeFile filepath content (set_floating rest st))
    as (_ & _ & _ & Ht & Hc & Hu).
  destruct (writeFile filepath content (set_floating rest st))
    as [st1 [[]|e]]; cbn in *; rewrite ?Ht, ?Hc, ?Hu, ?app_nil_r; done.
Qed.

(** What [ensureValidPath] refuses, exactly: the paths outside the
    workspace, and the paths inside it whose first segment below the
    workspace begins with two dots. *)
Lemma refused_iff filepath :
  Path.isAbsolute cwd = true →
  isOutsideWorkspace filepath = true ↔
  ¬ insideWorkspace filepath ∨
  ∃ seg rest,
    Path.segments (Path.resolve cwd filepath)
    = Path.segments (Path.resolve cwd workspace) ++ seg :: rest ∧
    String.prefix ".." seg = true.
Proof.
  intros Hcwd. unfold isOutsideWorkspace, insideWorkspace.
  destruct (resolve_rooted cwd workspace Hcwd) as (fs & Hfs & ->).
  destruct (resolve_rooted cwd filepath Hcwd) as (ts & Hts & ->).
  rewrite !segments_rooted by done. unfold Path.relative.
  case_bool_decide as E.
  { assert (fs = ts) as <-.
    { apply (f_equal Path.segments) in E.
      by rewrite !segments_rooted in E by done. }
    split; [done|]. intros [Hno|(seg & rest & Hlen & _)].
    - by destruct Hno.
    - apply (f_equal length) in Hlen. rewrite length_app in Hlen.
      cbn in Hlen. lia. }
  rewrite !resolve_of_rooted by done.
  rewrite bool_decide_eq_false_2 by done.
  rewrite !segments_rooted by done.
  destruct (dropCommon_spec fs ts) as (common & Hx & Hy & Hiff).
  destruct (Path.dropCommon fs ts) as [up down]. cbn [fst snd] in *.
  destruct up as [|u up].
  - rewrite app_nil_r in Hx. subst common. cbn [length replicate app].
    assert (fs `prefix_of` ts) as Hin by by apply Hiff.
    destruct down as [|seg rest].
    + split; [done|]. intros [Hno|(seg & rest & Hts' & _)]; [done|].
      rewrite Hy in Hts' at 1. by apply app_inv_head in Hts'.
    + rewrite prefix_dots_unsplit. split.
      * intros Hdots. right. by exists seg, rest.
      * intros [Hno|(seg' & rest' & Hts' & Hdots)]; [done|].
        rewrite Hy in Hts' at 1. apply app_inv_head in Hts'.
        by injection Hts' as -> ->.
  - cbn [length replicate app]. rewrite prefix_dots_unsplit.
    split; [|done]. intros _. left. intros Hin. by apply Hiff in Hin.
Qed.

(** The check is sound: it lets no path through that leaves the
    workspace. *)
Lemma outside_is_refused filepath :
  Path.isAbsolute cwd = true →
  ¬ insideWorkspace filepath → isOutsideWorkspace filepath = true.
Proof. intros Hcwd Hout. apply refused_iff; auto. Qed.

(** C8. What ADD_FILE does with a path the check accepts: the write is
    started and not awaited, so the report is COMPLETE [[0, undefined]]
    before a directory is made or a byte is written, and the disk is as it
    was.  When the write is settled later, nothing more is sent: a failure
    of [mkdir] or of [writeFile] is a rejection that no handler sees. *)
Theorem add_file_reports_before_writing sid filepath content (st : State) :
  consistent st → isOutsideWorkspace filepath = false →
  let st1 := step (Receive (Msg sid (ADD_FILE filepath content))) st in
  sent st1 = sent st ++ [(sid, COMPLETE [VNum 0; VUndef])] ∧
  world st1 = world st ∧
  floating st1 = floating st ++ [WriteFile filepath content] ∧
  console st1 = console st ∧ unhandled st1 = unhandled st ∧
  ∀ (st2 : State) rest,
    floating st2 = WriteFile filepath content :: rest →
    let r := writeFile filepath content (set_floating rest st2) in
    let st3 := step Settle st2 in
    sent st3 = sent st2 ∧ console st3 = console st2 ∧
    unhandled st3 =
      unhandled st2 ++
      match snd r with Returned _ => [] | Thrown e => [e] end.
Proof.
  intros Hc Hin st1.
  destruct (receive_fields (Msg sid (ADD_FILE filepath content)) st Hc)
    as (_ & _ & Ht & Hw & Hco & _ & Hf & Hu & _).
  fold st1 in Ht, Hw, Hco, Hf, Hu. cbn [sessionID Msg] in *.
  destruct (add_file_effect (target st sid) sid filepath content
              (prepared st sid)) as (Hr & Hw' & Hu' & Heff).
  rewrite Hin in Heff. destruct Heff as (Ht' & Hf' & Hco').
  cbn zeta in *. rewrite Hr, app_nil_r in Hu.
  rewrite Ht, Ht', Hw, Hw', Hf, Hf', Hco, Hco', Hu, Hu'.
  rewrite ownID_target by done.
  rewrite sent_prepared, world_prepared, floating_prepared, console_prepared,
    unhandled_prepared.
  do 5 (split; [done|]).
  intros st2 rest Hfl.
  by destruct (settle_effect filepath content rest st2 Hfl)
    as (? & ? & ? & ?).
Qed.

End Handlers.

(** ** The tokenizer, stated *)

(** C4. [parseCommand] is a total function that computes the tokens of the
    specification: it splits at the spaces outside quotes, and a span
    between two quotes of one kind is taken letter for letter, spaces and
    quotes of the other kind included, while the two quotes themselves are
    dropped.  The three examples of the specification hold, the empty
    command giving the single empty token. *)
Theorem parseCommand_tokenizes :
  (∀ cmd, parseCommand cmd = tokenize cmd) ∧
  (∀ q span pre cur,
     isQuoteChar q = true → q ∉ list_ascii_of_string span →
     run (str1 q +:+ span +:+ str1 q) (Loop (pre ++ [cur]) None)
     = Loop (pre ++ [cur +:+ span]) None) ∧
  parseCommand cmd_run_x = ["run"; "-x"; "a b"; "c"] ∧
  parseCommand cmd_echo_its = ["echo"; "it" +:+ str1 dquote +:+ "s"] ∧
  parseCommand EmptyString = [EmptyString].
Proof.
  split; [apply parseCommand_tokenize|].
  split; [|by repeat split].
  intros q span pre cur Hq Hnot. unfold str1 at 1.
  rewrite append_cons, append_nil_l, run_cons, body_open by done.
  by apply run_quoted_span.
Qed.

Lemma parseCommand_tokenizes_witness :
  run (str1 squote +:+ ("it" +:+ str1 dquote +:+ "s") +:+ str1 squote)
      (Loop (["echo"] ++ [EmptyString]) None)
  = Loop (["echo"] ++ [EmptyString +:+ ("it" +:+ str1 dquote +:+ "s")]) None.
Proof.
  apply parseCommand_tokenizes.
  - reflexivity.
  - apply (bool_decide_unpack _). vm_compute. exact I.
Defined.



(** ** The worker on the disk in memory *)

(** C6. With the workspace at [/workspace], a file whose name begins
    with two dots lies in the workspace, and [ensureValidPath] refuses it:
    the test is on the first two characters of the relative path, not on
    its first segment.  The two paths of the specification are judged as
    it says, and a refused ADD_FILE is reported with code 1. *)
Theorem dotted_name_is_refused :
  insideWorkspace "..foo" ∧
  isOutsideWorkspace "..foo" = true ∧
  Path.relative root (Path.resolve root workspace) (Path.resolve root "..foo")
    = "..foo" ∧
  isOutsideWorkspace "../outside.txt" = true ∧
  isOutsideWorkspace "sub/file.txt" = false ∧
  sent (runOn emptyDisk [Receive (Msg "s" (ADD_FILE "..foo" "x"))])
    = [("s", COMPLETE [VNum 1; VUndef])].
Proof.
  split; [by exists ["..foo"]|]. by repeat split.
Qed.


Lemma afterExit_consistent : consistent afterExit.
Proof. apply exec_consistent, initial_consistent. Qed.


Lemma kill_never_completes_witness :
  sent (exec [ProcExit 0 (VNum 0); Settle; ProcStdout 0 "x"]
          (step (Receive (Msg "s" KILL)) (initial emptyDisk))) = [].
Proof.
  apply (kill_never_completes emptyDisk "s"
           [ProcExit 0 (VNum 0); Settle; ProcStdout 0 "x"]).
  repeat constructor.
Defined.

Lemma kill_sends_no_report_witness :
  consistent (initial emptyDisk) ∧
  sent (step (Receive (Msg "s" KILL)) (initial emptyDisk)) = [].
Proof.
  split; [apply initial_consistent|].
  apply (kill_sends_no_report "s" (initial emptyDisk)
           (initial_consistent emptyDisk)).
Defined.


Lemma add_file_reports_before_writing_witness :
  consistent (initial readOnlyDisk) ∧
  isOutsideWorkspace "sub/file.txt" = false ∧
  sent (step (Receive (Msg "s" (ADD_FILE "sub/file.txt" "x")))
          (initial readOnlyDisk))
  = [("s", COMPLETE [VNum 0; VUndef])].
Proof.
  split; [apply initial_consistent|]. split; [reflexivity|].
  apply (add_file_reports_before_writing "s" "sub/file.txt" "x"
           (initial readOnlyDisk) (initial_consistent readOnlyDisk)).
  reflexivity.
Defined.


(** The same message on a disk that refuses every write, followed by the
    settling of the write: the report says 0, the error is unhandled. *)
Example add_file_on_read_only_disk :
  let st := runOn readOnlyDisk
              [Receive (Msg "s" (ADD_FILE "sub/file.txt" "x")); Settle] in
  sent st = [("s", COMPLETE [VNum 0; VUndef])] ∧
  unhandled st = [SystemError "EACCES"] ∧
  console st = [] ∧
  files (world st) = ∅.
Proof. by repeat split. Qed.

(** ADD_ARTIFACT on the same disk: [mkdirp] is awaited before [runTask]
    is entered, so its failure rejects the handler; nothing is reported
    and the counter of the session stays at one. *)
Example add_artifact_on_read_only_disk :
  let st := runOn readOnlyDisk
              [Receive (Msg "s" (ADD_ARTIFACT "a"
                                   {| backend := "memory"; descriptor := 0 |}
                                   "t" VUndef))] in
  sent st = [] ∧
  unhandled st = [SystemError "EACCES"] ∧
  activeMsgCount (heap st !!! 0%nat) = 1 ∧
  sessions st !! "s" = Some 0%nat.
Proof. by repeat split. Qed.

(** * Further properties of the worker *)

Section Forwarding.

Context {W : Type} `{Host W}.

Local Abbreviation State := (State W).

Lemma output_step pid p (o : bool * string) (st : State) :
  procs st !! pid = Some p →
  step (if fst o then ProcStderr pid (snd o) else ProcStdout pid (snd o)) st
  = set_sent (sent st ++
      [(ownID (heap st !!! owner p),
        if fst o then STDERR (snd o) else STDOUT (snd o))]) st.
Proof. intros Hp. destruct o as [[] chunk]; cbn; by rewrite Hp. Qed.

(** X1. The chunks a child writes on its two streams are sent on as
    STDOUT and STDERR frames of the session that spawned it, one frame for
    each chunk, unchanged and in the order of arrival; they touch no
    counter, no table and no process, and they are sent whether or not
    the child still runs. *)
Theorem output_is_forwarded_in_order pid p out (st : State) :
  procs st !! pid = Some p →
  let st' := exec (outputEvents pid out) st in
  sent st' = sent st ++ outputFrames (ownID (heap st !!! owner p)) out ∧
  heap st' = heap st ∧ sessions st' = sessions st ∧ procs st' = procs st ∧
  unhandled st' = unhandled st ∧ world st' = world st.
Proof.
  intros Hp. cbn zeta. revert st Hp.
  induction out as [|o out IH]; intros st Hp.
  - cbn. by rewrite app_nil_r.
  - change (exec (outputEvents pid (o :: out)) st)
      with (exec (outputEvents pid out)
              (step (if fst o then ProcStderr pid (snd o)
                     else ProcStdout pid (snd o)) st)).
    rewrite (output_step pid p o st Hp).
    destruct (IH (set_sent (sent st ++
                 [(ownID (heap st !!! owner p),
                   if fst o then STDERR (snd o) else STDOUT (snd o))]) st) Hp)
      as (Ht & Hh & Hs & Hpr & Hu & Hw).
    cbn in Ht. rewrite Ht, <- app_assoc. by repeat split.
Qed.

End Forwarding.

Lemma output_is_forwarded_in_order_witness :
  let st := step (Receive (Msg "s" (RUN "echo hello"))) (initial emptyDisk) in
  sent (exec (outputEvents 0 [(false, "hel"); (true, "warn"); (false, "lo")]) st)
  = [("s", STDOUT "hel"); ("s", STDERR "warn"); ("s", STDOUT "lo")].
Proof.
  intros st.
  assert (procs st !! 0%nat = Some (newProcess 0 "echo" ["hello"])) as Hp
    by reflexivity.
  exact (proj1 (output_is_forwarded_in_order 0 _
                  [(false, "hel"); (true, "warn"); (false, "lo")] st Hp)).
Defined.

Section KindFacts.

Context {W : Type} `{Host W}.

Local Abbreviation State := (State W).

Lemma env_prepared (st : State) sid : env (prepared st sid) = env st.
Proof. unfold prepared. by destruct (sessions st !! sid). Qed.

Lemma set_env_effect self sid name value (st : State) :
  let r := sessionOnMessage self (Msg sid (SET_ENV name value)) st in
  snd r = Returned tt ∧
  env (fst r) = <[name := value]> (env st) ∧
  sent (fst r) =
    sent st ++ [(ownID (heap st !!! self), COMPLETE [VNum 0; VUndef])] ∧
  world (fst r) = world st ∧ unhandled (fst r) = unhandled st ∧
  console (fst r) = console st ∧ procs (fst r) = procs st.
Proof.
  cbn zeta. rewrite sessionOnMessage_entered. cbn [request Msg].
  rewrite runTask_eq. cbn. rewrite ownID_alter by done. by repeat split.
Qed.




End KindFacts.




Section DirectoryFacts.

Context {W : Type} `{Host W}.

Local Abbreviation State := (State W).

Lemma mkdirpFrom_never_EEXIST dirs dir (st : State) e :
  snd (mkdirpFrom dir dirs st) = Thrown e → errorCode e ≠ Some "EEXIST".
Proof.
  revert dir st. induction dirs as [|d more IH]; intros dir st; [done|].
  rewrite mkdirpFrom_cons. cbn zeta.
  destruct (fsp_mkdir _ (world st)) as [w [e'|]]; [|apply IH].
  case_bool_decide as E; [apply IH|].
  cbn. by intros [= <-].
Qed.

Lemma mkdirpFrom_returns dirs dir (st : State) d :
  snd (mkdirpFrom dir dirs st) = Returned d → d = lastDir dir dirs.
Proof.
  revert dir st. induction dirs as [|x more IH]; intros dir st.
  - cbn. by intros [= <-].
  - rewrite mkdirpFrom_cons. cbn zeta.
    change (lastDir dir (x :: more))
      with (lastDir (Path.join [dir; x]) more).
    destruct (fsp_mkdir _ (world st)) as [w [e'|]]; [|apply IH].
    case_bool_decide as E; [apply IH|done].
Qed.

Lemma mkdirpFrom_app pre post dir (st : State) :
  mkdirpFrom dir (pre ++ post) st =
  match mkdirpFrom dir pre st with
  | (st1, Returned d) => mkdirpFrom d post st1
  | (st1, Thrown e) => (st1, Thrown e)
  end.
Proof.
  revert dir st. induction pre as [|x pre IH]; intros dir st; [done|].
  change ((x :: pre) ++ post) with (x :: (pre ++ post)).
  rewrite !mkdirpFrom_cons. cbn zeta.
  destruct (fsp_mkdir _ (world st)) as [w [e'|]]; [|apply IH].
  case_bool_decide as E; [apply IH|done].
Qed.

Lemma mkdirp_eq dirs (st : State) :
  mkdirp dirs st =
  match mkdirpFrom cwd dirs st with
  | (st1, Returned _) => (st1, Returned tt)
  | (st1, Thrown e) => (st1, Thrown e)
  end.
Proof. unfold mkdirp, bind. by destruct (mkdirpFrom cwd dirs st) as [? []]. Qed.

(** X5. [mkdirp] treats a directory that exists as made: it never fails
    with [EEXIST].  It stays off the stage, and without directories it
    does nothing at all. *)
Theorem mkdirp_never_fails_with_EEXIST dirs (st : State) :
  (∀ e, snd (mkdirp dirs st) = Thrown e → errorCode e ≠ Some "EEXIST") ∧
  sameStage st (fst (mkdirp dirs st)) ∧
  mkdirp [] st = (st, Returned tt).
Proof.
  split; [|split; [apply offstage_mkdirp|done]].
  intros e. rewrite mkdirp_eq.
  pose proof (mkdirpFrom_never_EEXIST dirs cwd st e) as Hno.
  destruct (mkdirpFrom cwd dirs st) as [st1 [d|e']]; [done|].
  cbn in *. intros [= ->]. by apply Hno.
Qed.

(** X6. [mkdirp] stops at the first directory it cannot make: when the
    directories before [d] have been made or found and [mkdir] fails on
    [d] with a code other than [EEXIST], the call rejects with that
    error in the world [mkdir] left, whatever directories follow: none of
    them is tried. *)
Theorem mkdirp_stops_at_first_failure pre d post (st st1 : State) w e :
  mkdirp pre st = (st1, Returned tt) →
  fsp_mkdir (Path.join [lastDir cwd pre; d]) (world st1) = (w, Some e) →
  errorCode e ≠ Some "EEXIST" →
  mkdirp (pre ++ d :: post) st = (set_world w st1, Thrown e).
Proof.
  intros Hpre Hmk Hcode. rewrite mkdirp_eq in Hpre |- *.
  rewrite mkdirpFrom_app.
  pose proof (mkdirpFrom_returns pre cwd st) as Hlast.
  destruct (mkdirpFrom cwd pre st) as [st1' [dir|e']]; [|done].
  injection Hpre as ->. rewrite (Hlast dir eq_refl).
  rewrite mkdirpFrom_cons. cbn zeta. rewrite Hmk.
  by rewrite bool_decide_eq_false_2.
Qed.

End DirectoryFacts.

Lemma mkdirp_never_fails_with_EEXIST_witness :
  snd (mkdirp ["."; "sub"] (initial readOnlyDisk))
    = Thrown (SystemError "EACCES") ∧
  errorCode (SystemError "EACCES") ≠ Some "EEXIST".
Proof.
  split; [reflexivity|].
  apply (proj1 (mkdirp_never_fails_with_EEXIST ["."; "sub"]
                  (initial readOnlyDisk))).
  reflexivity.
Defined.

Lemma mkdirp_stops_at_first_failure_witness :
  mkdirp (["."] ++ "sub" :: ["deep"; "deeper"]) (initial readOnlyDisk)
  = (set_world readOnlyDisk (initial readOnlyDisk),
     Thrown (SystemError "EACCES")).
Proof.
  apply (mkdirp_stops_at_first_failure ["."] "sub" ["deep"; "deeper"]
           (initial readOnlyDisk) (initial readOnlyDisk)
           readOnlyDisk (SystemError "EACCES")).
  - reflexivity.
  - reflexivity.
  - discriminate.
Defined.

Section ArtifactFacts.

Context {W : Type} `{Host W}.

Local Abbreviation State := (State W).

Lemma fetchArtifact_undefined name dataInfo type config dirs (st : State) v :
  snd (fetchArtifact name dataInfo type config dirs st) = Returned v →
  v = VUndef.
Proof.
  unfold fetchArtifact, bind, sysv, sys, ret.
  destruct (getClient _ _ (world st)) as [w1 [client|e1]]; [|done].
  cbn [world set_world].
  destruct (getFileStream _ _ w1) as [w2 [stream|e2]]; [|done].
  cbn [world set_world].
  destruct (pipelineToFile _ _ w2) as [w3 [e3|]]; [done|].
  cbn [world set_world].
  destruct (fsp_writeFile _ _ w3) as [w4 [e4|]]; [done|].
  cbn. by intros [= <-].
Qed.

Lemma saveArtifact_descriptor filepath name backendName config (st : State) v :
  snd (saveArtifact filepath name backendName config st) = Returned v →
  ∃ d, v = VData d.
Proof.
  unfold saveArtifact, bind, sysv, ret.
  destruct (getClient _ _ (world st)) as [w1 [client|e1]]; [|done].
  cbn [world set_world].
  destruct (createReadStream filepath w1) as [w2 stream].
  cbn [world set_world].
  destruct (putFileStream _ _ _ w2) as [w3 [d|e3]]; [|done].
  cbn. intros [= <-]. by exists d.
Qed.

(** A handler that is a prelude off the stage followed by one [runTask]:
    what the message does to the agent. *)
Lemma prelude_then_task sid (msg : Message) (pre : M W unit)
    (fn : M W Value) (st : State) :
  consistent st → sessionID msg = sid →
  offstage pre → offstage fn →
  (∀ self st0, sessionOnMessage self msg st0
               = bind pre (λ _, runTask self fn) (entered self st0)) →
  let self := target st sid in
  let p := pre (entered self (prepared st sid)) in
  let st' := step (Receive msg) st in
  match snd p with
  | Thrown e =>
      sent st' = sent st ∧ unhandled st' = unhandled st ++ [e] ∧
      console st' = console st ∧ world st' = world (fst p) ∧
      sessions st' !! sid = Some self ∧
      activeMsgCount (heap st' !!! self)
      = activeMsgCount (heap (prepared st sid) !!! self) + 1
  | Returned _ =>
      let f := fn (fst p) in
      unhandled st' = unhandled st ∧ world st' = world (fst f) ∧
      sent st' =
        sent st ++
        [(sid, COMPLETE match snd f with
                        | Returned v => [VNum 0; v]
                        | Thrown _ => [VNum 1; VUndef]
                        end)] ∧
      console st' =
        console st ++ match snd f with Returned _ => [] | Thrown e => [e] end
  end.
Proof.
  intros Hc Hsid Hpre Hfn Heq self p st'.
  destruct (receive_fields msg st Hc)
    as (Hh & _ & Ht & Hw & Hco & _ & _ & Hu & Hs).
  rewrite Hsid in Hh, Ht, Hw, Hco, Hu, Hs.
  fold self st' in Hh, Ht, Hw, Hco, Hu, Hs.
  rewrite Heq in Hh, Ht, Hw, Hco, Hu, Hs. unfold bind in Hh, Ht, Hw, Hco, Hu, Hs.
  fold p in Hh, Ht, Hw, Hco, Hu, Hs. clearbody st'.
  pose proof (Hpre (entered self (prepared st sid))) as Hstage. fold p in Hstage.
  destruct (target_prepared st sid Hc) as [Htab Hlt]. fold self in Htab, Hlt.
  apply lookup_lt_is_Some_2 in Hlt as [s Hsome].
  destruct p as [st1 [[]|e]]; cbn [fst snd] in *;
    destruct Hstage as (Hh1 & Hs1 & Hp1 & Ht1 & Hc1 & Hu1).
  - cbn zeta. rewrite runTask_eq in Hh, Ht, Hw, Hco, Hu, Hs.
    pose proof (Hfn st1) as (Hh2 & _ & _ & Ht2 & Hc2 & Hu2).
    assert (ownID (heap st1 !!! self) = sid) as Hid.
    { rewrite Hh1. cbn. rewrite ownID_alter by done.
      by apply ownID_target. }
    destruct (fn st1) as [st2 [v|e]]; cbn [fst snd] in *;
      cbn in Ht, Hw, Hco, Hu;
      rewrite Ht, Hw, Hco, Hu, ?Ht2, ?Hc2, ?Hu2, Hh2, Hid, Ht1, Hc1, Hu1,
        ?app_nil_r; cbn;
      by rewrite sent_prepared, unhandled_prepared, console_prepared.
  - rewrite Ht, Hu, Hco, Hw, Hs, Hh, Ht1, Hu1, Hc1, Hh1. cbn.
    rewrite sent_prepared, unhandled_prepared, console_prepared.
    rewrite (lookup_total_alter_self _ _ _ _ Hsome).
    by rewrite (list_lookup_total_correct _ _ _ Hsome).
Qed.



End ArtifactFacts.



Section LinkFacts.

Context {W : Type} `{Host W}.

Local Abbreviation State := (State W).

Lemma lookup_alter_Some (g : Session → Session) self (h : list Session) r s' :
  alter g self h !! r = Some s' →
  ∃ s, h !! r = Some s ∧ ((r ≠ self ∧ s' = s) ∨ (r = self ∧ s' = g s)).
Proof.
  rewrite list_lookup_alter. case_decide as E.
  - subst r. destruct (h !! self) as [s|]; [|done].
    cbn. intros [= <-]. exists s. split; [done|]. by right.
  - intros Hr. exists s'. split; [done|]. left. split; [congruence|done].
Qed.

Lemma runningOf_pos pid p (ps : list Process) :
  ps !! pid = Some p → running p = true →
  (1 ≤ runningOf (owner p) ps)%nat.
Proof.
  intros Hp Hr. rewrite (runningOf_markExited (owner p) pid p ps Hp Hr).
  rewrite decide_True by done. lia.
Qed.

Lemma initial_linked (w : W) : linked (initial w).
Proof. split; cbn; intros; by simplify_list_eq. Qed.

Lemma linked_ext (st st' : State) :
  heap st' = heap st → sessions st' = sessions st → procs st' = procs st →
  linked st → linked st'.
Proof.
  intros Hh Hs Hp [S L]. split; rewrite ?Hh, ?Hs, ?Hp; auto.
Qed.

Lemma prepared_linked (st : State) sid :
  consistent st → linked st → linked (prepared st sid).
Proof.
  intros [T O C] [S L]. unfold prepared.
  destruct (sessions st !! sid) as [self|] eqn:Hsid; [by split|].
  split; cbn.
  - intros self s pid [Hs|[_ Hs]]%lookup_app_Some Hsub.
    + by apply (S self s).
    + apply list_lookup_singleton_Some in Hs as [_ <-]. done.
  - intros pid p s Hp Hr Hs.
    pose proof (O pid p Hp) as Hlt.
    rewrite lookup_app_l in Hs by done.
    pose proof (L pid p s Hp Hr Hs) as Htab.
    rewrite lookup_insert_ne; [done|]. intros E. rewrite <- E in Htab.
    congruence.
Qed.

(** One call of the session's handler keeps the links, when the session
    is the entry of the table under [sid]. *)
Lemma Dispatch_linked self sid (st st' : State) r :
  consistent st → linked st →
  sessions st !! sid = Some self → sessions st' = sessions st →
  Dispatch self st st' r → linked st'.
Proof.
  intros Hc [S L] Hsid Hs HD. pose proof Hc as [T O C].
  destruct (T sid self Hsid) as (s0 & Hs0 & Hid0).
  destruct HD as [data Hh Hp Ht|cmd opts Hh Hp Ht|Hh Hp Ht|e Hh Hp Ht].
  - by apply (linked_ext st).
  - split; rewrite ?Hh, ?Hp, ?Hs.
    + intros r0 s' pid Hr0 Hsub.
      apply lookup_alter_Some in Hr0 as (s1 & Hr0 & [[Hne ->]|[-> ->]]).
      * apply lookup_alter_Some in Hr0 as (s2 & Hr0 & [[_ ->]|[-> _]]);
          [|done].
        destruct (S r0 s2 pid Hr0 Hsub) as (p & Hp' & Ho).
        exists p. split; [|done]. by apply lookup_app_l_Some.
      * cbn in Hsub. injection Hsub as <-.
        exists (newProcess self cmd opts). split; [|done].
        by rewrite lookup_app_r, Nat.sub_diag.
    + intros pid p s' Hpid Hr Hown.
      apply lookup_alter_Some in Hown as (s1 & Hown & Hs1).
      apply lookup_alter_Some in Hown as (s2 & Hown & Hs2).
      assert (ownID s' = ownID s2) as ->.
      { destruct Hs1 as [[_ ->]|[_ ->]], Hs2 as [[_ ->]|[_ ->]]; done. }
      apply lookup_app_Some in Hpid as [Hpid|[_ Hpid]].
      * by apply (L pid p s2).
      * apply list_lookup_singleton_Some in Hpid as [_ <-].
        cbn [owner newProcess] in *.
        assert (s2 = s0) as -> by congruence. by rewrite Hid0.
  - assert (∀ pid p', match subprocess (heap st !!! self) with
                      | Some k => alter addKill k (procs st)
                      | None => procs st
                      end !! pid = Some p' →
              ∃ p, procs st !! pid = Some p ∧ owner p' = owner p ∧
                   running p' = running p) as Hold.
    { intros pid p'. destruct (subprocess _) as [k|]; [|by eauto].
      rewrite list_lookup_alter. case_decide; [|by eauto].
      subst k. destruct (procs st !! pid) as [p|]; [|done].
      cbn. intros [= <-]. by exists p. }
    split; rewrite ?Hh, ?Hp, ?Hs.
    + intros r0 s' pid Hr0 Hsub.
      apply lookup_alter_Some in Hr0 as (s1 & Hr0 & Hs1).
      assert (subprocess s1 = Some pid) as Hsub1.
      { by destruct Hs1 as [[_ ->]|[_ ->]]. }
      destruct (S r0 s1 pid Hr0 Hsub1) as (p & Hp' & Ho).
      destruct (subprocess (heap st !!! self)) as [k|]; [|by exists p].
      rewrite list_lookup_alter. case_decide; [|by exists p].
      subst k. rewrite Hp'. by exists (addKill p).
    + intros pid p' s' Hpid Hr Hown.
      destruct (Hold pid p' Hpid) as (p & Hpid' & Ho & Hrun).
      rewrite Ho in Hown |- *. rewrite Hrun in Hr.
      apply lookup_alter_Some in Hown as (s1 & Hown & Hs1).
      assert (ownID s' = ownID s1) as ->.
      { by destruct Hs1 as [[_ ->]|[_ ->]]. }
      by apply (L pid p s1).
  - split; rewrite ?Hh, ?Hp, ?Hs.
    + intros r0 s' pid Hr0 Hsub.
      apply lookup_alter_Some in Hr0 as (s1 & Hr0 & Hs1).
      apply (S r0 s1 pid Hr0). by destruct Hs1 as [[_ ->]|[_ ->]].
    + intros pid p s' Hpid Hr Hown.
      apply lookup_alter_Some in Hown as (s1 & Hown & Hs1).
      assert (ownID s' = ownID s1) as ->.
      { by destruct Hs1 as [[_ ->]|[_ ->]]. }
      by apply (L pid p s1).
Qed.

Lemma evict_linked sid (st : State) :
  consistent st → linked st → linked (fst (evict sid st)).
Proof.
  intros [T O C] [S L]. unfold evict.
  destruct (sessions st !! sid) as [self|] eqn:Hsid; [|by split].
  case_bool_decide as Hz; [|by split]. split; cbn; [done|].
  intros pid p s Hp Hr Hs. pose proof (L pid p s Hp Hr Hs) as Htab.
  rewrite lookup_delete_ne; [done|]. intros E. rewrite <- E in Htab.
  assert (self = owner p) as -> by congruence.
  pose proof (C (owner p) s Hs) as Hcount.
  pose proof (runningOf_pos pid p _ Hp Hr) as Hpos.
  rewrite (list_lookup_total_correct _ _ _ Hs) in Hz. lia.
Qed.

Lemma top_linked (m : M W unit) (st : State) :
  linked (fst (m st)) → linked (top m st).
Proof.
  unfold top. destruct (m st) as [st1 [[]|e]]; [done|].
  by apply linked_ext.
Qed.

Lemma step_linked ev (st : State) :
  consistent st → linked st → linked (step ev st).
Proof.
  intros Hc Hl. destruct ev as [msg|pid code|pid chunk|pid chunk|]; cbn [step].
  - apply top_linked. rewrite clientOnMessage_eq.
    pose proof (prepared_consistent st (sessionID msg) Hc) as Hc0.
    pose proof (prepared_linked st (sessionID msg) Hc Hl) as Hl0.
    destruct (target_prepared st (sessionID msg) Hc) as [Htab Hlt].
    destruct (sessionOnMessage_Dispatch (target st (sessionID msg)) msg
                (prepared st (sessionID msg))) as [Hs HD].
    destruct (sessionOnMessage _ msg _) as [st1 r]. cbn [fst snd] in *.
    assert (linked st1) as Hl1 by by eapply Dispatch_linked.
    assert (consistent st1) as Hc1 by by eapply Dispatch_consistent.
    destruct r as [[]|e]; [by apply evict_linked|done].
  - destruct (procs st !! pid) as [p|] eqn:Hp; [|done].
    destruct (running p) eqn:Hr; [|done].
    apply top_linked. cbn. destruct Hl as [S L]. split; cbn.
    + intros r0 s' k Hr0 Hsub.
      apply lookup_alter_Some in Hr0 as (s1 & Hr0 & Hs1).
      assert (subprocess s1 = Some k) as Hsub1.
      { by destruct Hs1 as [[_ ->]|[_ ->]]. }
      destruct (S r0 s1 k Hr0 Hsub1) as (q & Hq & Ho).
      rewrite list_lookup_alter. case_decide; [|by exists q].
      subst k. rewrite Hq. by exists (markExited q).
    + intros k q s' Hk Hrq Hown. rewrite list_lookup_alter in Hk.
      case_decide as E.
      { subst k. rewrite Hp in Hk. cbn in Hk. injection Hk as <-. done. }
      apply lookup_alter_Some in Hown as (s1 & Hown & Hs1).
      assert (ownID s' = ownID s1) as ->.
      { by destruct Hs1 as [[_ ->]|[_ ->]]. }
      by apply (L k q s1).
  - destruct (procs st !! pid); [|done].
    apply top_linked. by apply (linked_ext st).
  - destruct (procs st !! pid); [|done].
    apply top_linked. by apply (linked_ext st).
  - destruct (floating st) as [|[filepath content] rest]; [done|].
    apply top_linked.
    destruct (offstage_writeFile filepath content (set_floating rest st))
      as (Hh & Hs & Hp & _).
    by apply (linked_ext st).
Qed.

Lemma exec_sound evs (st : State) :
  consistent st → linked st →
  consistent (exec evs st) ∧ linked (exec evs st).
Proof.
  revert st. induction evs as [|ev evs IH]; intros st Hc Hl; [done|].
  apply IH; [by apply step_consistent|by apply step_linked].
Qed.

End LinkFacts.

Section ReachableTheorems.

Context {W : Type} `{Host W}.

Local Abbreviation State := (State W).

Lemma reachable_sound (w : W) evs :
  consistent (exec evs (initial w)) ∧ linked (exec evs (initial w)).
Proof. apply exec_sound; [apply initial_consistent|apply initial_linked]. Qed.

(** X9. In every state the worker reaches from its start, whatever the
    events and whatever the host does: an entry of the client's table
    leads to a session object that carries the key as its [sessionID],
    and the counter of every session object is at least the number of its
    children that still run; in particular it is never negative. *)
Theorem counter_bounds_running_children (w : W) evs :
  let st := exec evs (initial w) in
  (∀ sid self, sessions st !! sid = Some self →
     ∃ s, heap st !! self = Some s ∧ ownID s = sid) ∧
  (∀ self s, heap st !! self = Some s →
     Z.of_nat (runningOf self (procs st)) ≤ activeMsgCount s ∧
     0 ≤ activeMsgCount s).
Proof.
  cbn zeta. destruct (reachable_sound w evs) as [[T O C] _].
  split; [exact T|]. intros self s Hs. specialize (C self s Hs). lia.
Qed.

(** X10. A session is never evicted while a child of it runs: in every
    reachable state the session object that the listeners of a running
    child close over is the entry of the client's table under its own
    identifier.  And [this.subprocess] of a session always refers to a
    child that this very session has spawned. *)
Theorem running_child_keeps_its_session (w : W) evs :
  let st := exec evs (initial w) in
  (∀ pid p, procs st !! pid = Some p → running p = true →
     ∃ s, heap st !! owner p = Some s ∧
          sessions st !! ownID s = Some (owner p)) ∧
  (∀ self s pid, heap st !! self = Some s → subprocess s = Some pid →
     ∃ p, procs st !! pid = Some p ∧ owner p = self).
Proof.
  cbn zeta. destruct (reachable_sound w evs) as [[T O C] [S L]].
  split; [|exact S]. intros pid p Hp Hr.
  destruct (lookup_lt_is_Some_2 _ _ (O pid p Hp)) as [s Hs].
  exists s. split; [done|]. by apply (L pid p s).
Qed.

(** X11. Sessions do not disturb each other: in every reachable state, a
    message changes no session object other than the one it is dispatched
    to, no child of another session (a KILL never reaches one), and no
    entry of the table other than its own. *)
Theorem message_touches_only_its_session (w : W) evs msg :
  let st := exec evs (initial w) in
  let self := target st (sessionID msg) in
  let st' := step (Receive msg) st in
  (∀ r s, r ≠ self → heap st !! r = Some s → heap st' !! r = Some s) ∧
  (∀ pid p, procs st !! pid = Some p → owner p ≠ self →
     procs st' !! pid = Some p) ∧
  (∀ sid', sid' ≠ sessionID msg → sessions st' !! sid' = sessions st !! sid').
Proof.
  cbn zeta. destruct (reachable_sound w evs) as [Hc Hl].
  set (st := exec evs (initial w)) in *. set (sid := sessionID msg).
  set (self := target st sid).
  destruct (receive_fields msg st Hc) as (Hh & Hp & _ & _ & _ & _ & _ & _ & Hs).
  fold sid self in Hh, Hp, Hs.
  destruct (sessionOnMessage_Dispatch self msg (prepared st sid)) as [_ HD].
  destruct (target_prepared st sid Hc) as [Htab Hlt]. fold self in Htab, Hlt.
  pose proof (prepared_linked st sid Hc Hl) as [S0 _].
  split; [|split].
  - intros r s Hne Hr. rewrite Hh.
    destruct (Dispatch_heap _ _ _ _ HD) as [g ->].
    rewrite list_lookup_alter_ne by done.
    unfold prepared. destruct (sessions st !! sid); [done|].
    by apply lookup_app_l_Some.
  - intros pid p Hpid Hown. rewrite Hp.
    rewrite <- (procs_prepared st sid) in Hpid.
    destruct HD as [data _ Hpr _|cmd opts _ Hpr _|_ Hpr _|e _ Hpr _];
      rewrite Hpr; try done.
    + by apply lookup_app_l_Some.
    + apply lookup_lt_is_Some_2 in Hlt as [s0 Hs0].
      rewrite (list_lookup_total_correct _ _ _ Hs0).
      destruct (subprocess s0) as [k|] eqn:Hsub; [|done].
      destruct (S0 self s0 k Hs0 Hsub) as (q & Hq & Hoq).
      rewrite list_lookup_alter_ne; [done|]. intros ->. congruence.
  - intros sid' Hne. rewrite Hs.
    destruct (snd (sessionOnMessage self msg (prepared st sid)));
      [case_bool_decide|]; rewrite ?lookup_delete_ne by done;
      by apply sessions_prepared_ne.
Qed.

End ReachableTheorems.

Lemma counter_bounds_running_children_witness :
  ∃ s, heap afterExit !! 0%nat = Some s ∧ ownID s = "s".
Proof.
  apply (proj1 (counter_bounds_running_children emptyDisk
                  [Receive (Msg "s" (RUN "true")); ProcExit 0 (VNum 0)])
           "s" 0%nat).
  reflexivity.
Defined.

Lemma running_child_keeps_its_session_witness :
  ∃ s, heap (runOn emptyDisk [Receive (Msg "s" (RUN "true"));
                              Receive (Msg "s" (SET_ENV "A" "1"))])
         !! 0%nat = Some s ∧
       sessions (runOn emptyDisk [Receive (Msg "s" (RUN "true"));
                                  Receive (Msg "s" (SET_ENV "A" "1"))])
         !! ownID s = Some 0%nat.
Proof.
  apply (proj1 (running_child_keeps_its_session emptyDisk
                  [Receive (Msg "s" (RUN "true"));
                   Receive (Msg "s" (SET_ENV "A" "1"))])
           0%nat (newProcess 0 "true" [])); reflexivity.
Defined.

Lemma message_touches_only_its_session_witness :
  procs (step (Receive (Msg "t" KILL))
           (runOn emptyDisk [Receive (Msg "s" (RUN "true"))])) !! 0%nat
  = Some (newProcess 0 "true" []).
Proof.
  apply (proj1 (proj2 (message_touches_only_its_session emptyDisk
                         [Receive (Msg "s" (RUN "true"))] (Msg "t" KILL)))
           0%nat (newProcess 0 "true" [])).
  - reflexivity.
  - vm_compute. discriminate.
Defined.

Section Accounting.

Context {W : Type} `{Host W}.

Local Abbreviation State := (State W).

(** A prelude off the stage followed by one [runTask], from the state of
    entry: no rejection is recorded, and a normal return leaves the
    session objects and the children as they were before the entry. *)
Lemma prelude_task_facts self (pre : M W unit) (fn : M W Value) (st : State) :
  offstage pre → offstage fn →
  let r := bind pre (λ _, runTask self fn) (entered self st) in
  unhandled (fst r) = unhandled st ∧
  (snd r = Returned tt → heap (fst r) = heap st ∧ procs (fst r) = procs st).
Proof.
  intros Hpre Hfn. cbn zeta. unfold bind.
  pose proof (Hpre (entered self st)) as (Hh1 & _ & Hp1 & _ & _ & Hu1).
  destruct (pre (entered self st)) as [st1 [[]|e]]; cbn [fst snd] in *.
  - rewrite runTask_eq. pose proof (Hfn st1) as (Hh2 & _ & Hp2 & _ & _ & Hu2).
    destruct (fn st1) as [st2 [v|e]]; cbn [fst snd] in *; cbn;
      rewrite ?Hh2, ?Hp2, ?Hu2, Hh1, Hp1, Hu1; cbn;
      by rewrite alter_addCount_back.
  - by rewrite Hu1.
Qed.

Lemma handler_shape self msg (st : State) :
  (∃ data, request msg = RUN data) ∨ request msg = KILL ∨
  (∃ kind data, request msg = OTHER kind data) ∨
  ∃ (pre : M W unit) (fn : M W Value),
    offstage pre ∧ offstage fn ∧
    sessionOnMessage self msg st
    = bind pre (λ _, runTask self fn) (entered self st).
Proof.
  rewrite sessionOnMessage_entered.
  destruct (request msg) as
    [data| |name dataInfo type config|filepath name backendName config
    |filepath content|name value|filepath|kind data].
  - left. by exists data.
  - right. by left.
  - do 3 right.
    exists (bind (mkdirp ["artifacts"; name]) (λ _, getStorageAdapters)),
      (fetchArtifact name dataInfo type (orEmptyObject config)
         ["artifacts"; name]).
    split; [|split; [apply offstage_fetchArtifact|]].
    + apply offstage_bind; [apply offstage_mkdirp|intros _; apply offstage_sys].
    + unfold bind. by destruct (mkdirp _ _) as [? [[]|?]].
  - do 3 right. exists getStorageAdapters,
      (saveArtifact filepath name backendName (orEmptyObject config)).
    split; [apply offstage_sys|]. split; [apply offstage_saveArtifact|done].
  - do 3 right. eexists (ret tt), _. split; [apply offstage_ret|].
    split; [|reflexivity].
    apply offstage_bind; [apply offstage_ensureValidPath|intros _].
    apply offstage_bind; [apply offstage_detach|intros _]. apply offstage_ret.
  - do 3 right. eexists (ret tt), _. split; [apply offstage_ret|].
    split; [|reflexivity].
    apply offstage_bind; [|intros _; apply offstage_ret].
    apply offstage_update. intros st0. by repeat split.
  - do 3 right. eexists (ret tt), _. split; [apply offstage_ret|].
    split; [|reflexivity].
    apply offstage_bind; [apply offstage_ensureValidPath|intros _].
    apply offstage_bind; [apply offstage_sys|intros _]. apply offstage_ret.
  - right. right. left. by exists kind, data.
Qed.

(** What a handler other than KILL has done when it returns: it has
    reported and restored the counter, or it has spawned a child. *)
Lemma returned_without_kill self msg (st : State) :
  request msg ≠ KILL →
  let r := sessionOnMessage self msg st in
  unhandled (fst r) = unhandled st ∧
  (snd r = Returned tt →
     (heap (fst r) = heap st ∧ procs (fst r) = procs st) ∨
     ∃ cmd opts,
       heap (fst r) = alter (setSubprocess (length (procs st))) self
                        (alter (addCount 1) self (heap st)) ∧
       procs (fst r) = procs st ++ [newProcess self cmd opts]).
Proof.
  intros Hk. cbn zeta.
  destruct (handler_shape self msg st)
    as [[data Hreq]|[Hreq|[(kind & data & Hreq)|(pre & fn & Hpre & Hfn & ->)]]].
  - rewrite sessionOnMessage_entered, Hreq.
    destruct (parseCommand data) as [|cmd opts]; [by split|].
    unfold bind, spawn, get, bind. cbn [world entered set_heap].
    destruct (spawn_throws cmd opts (world st)) as [e|]; [by split|].
    cbn. split; [done|]. intros _. right. by exists cmd, opts.
  - done.
  - rewrite sessionOnMessage_entered, Hreq, onTaskComplete_eq. cbn.
    split; [done|]. intros _. left. by rewrite alter_addCount_back.
  - destruct (prelude_task_facts self pre fn st Hpre Hfn) as [Hu Hret].
    split; [done|]. intros Hr. left. by apply Hret.
Qed.

Lemma kill_or_not (r : Request) : r = KILL ∨ r ≠ KILL.
Proof. destruct r; auto; by right. Qed.

Lemma step_unhandled_grows ev (st : State) :
  consistent st → ∃ more, unhandled (step ev st) = unhandled st ++ more.
Proof.
  intros Hc. destruct ev as [msg|pid code|pid chunk|pid chunk|]; cbn [step].
  - destruct (receive_fields msg st Hc) as (_ & _ & _ & _ & _ & _ & _ & Hu & _).
    cbn [step] in Hu. rewrite Hu.
    assert (unhandled (fst (sessionOnMessage (target st (sessionID msg)) msg
                              (prepared st (sessionID msg)))) = unhandled st)
      as ->; [|eauto].
    rewrite <- (unhandled_prepared st (sessionID msg)).
    destruct (kill_or_not (request msg)) as [Hk|Hk].
    + destruct msg as [sid req]. cbn in Hk. subst req.
      by destruct (kill_effect (target st sid) sid (prepared st sid))
        as (_ & _ & _ & _ & ? & _).
    + by destruct (returned_without_kill (target st (sessionID msg)) msg
                     (prepared st (sessionID msg)) Hk) as [? _].
  - destruct (procs st !! pid) as [p|]; [|exists []; by rewrite app_nil_r].
    destruct (running p); exists []; by rewrite app_nil_r.
  - destruct (procs st !! pid); exists []; by rewrite app_nil_r.
  - destruct (procs st !! pid); exists []; by rewrite app_nil_r.
  - destruct (floating st) as [|[filepath content] rest];
      [exists []; by rewrite app_nil_r|].
    unfold top.
    destruct (offstage_writeFile filepath content (set_floating rest st))
      as (_ & _ & _ & _ & _ & Hu).
    destruct (writeFile filepath content (set_floating rest st))
      as [st1 [[]|e]]; cbn in *; rewrite Hu.
    + exists []. by rewrite app_nil_r.
    + by exists [e].
Qed.

Lemma prepared_exact (st : State) sid :
  consistent st →
  (∀ self s, heap st !! self = Some s →
     activeMsgCount s = Z.of_nat (runningOf self (procs st))) →
  ∀ self s, heap (prepared st sid) !! self = Some s →
    activeMsgCount s = Z.of_nat (runningOf self (procs (prepared st sid))).
Proof.
  intros [T O C] Hex self s. rewrite procs_prepared. unfold prepared.
  destruct (sessions st !! sid); [apply Hex|]. cbn -[runningOf].
  intros [Hs|[Hge Hs]]%lookup_app_Some; [by apply Hex|].
  apply list_lookup_singleton_Some in Hs as [Hz <-]. cbn -[runningOf].
  rewrite runningOf_none; [done|].
  intros pid p Hp. specialize (O pid p Hp). lia.
Qed.


End Accounting.


Section LastRun.

Context {W : Type} `{Host W}.

Local Abbreviation State := (State W).

Lemma prepared_known (st : State) sid self :
  sessions st !! sid = Some self →
  prepared st sid = st ∧ target st sid = self.
Proof. intros Hs. unfold prepared, target. by rewrite Hs. Qed.

(** A RUN whose [spawn] returns, seen from the client. *)
Lemma run_receive sid data cmd opts (st : State) :
  consistent st →
  parseCommand data = cmd :: opts →
  spawn_throws cmd opts (world st) = None →
  let self := target st sid in
  let st1 := step (Receive (Msg sid (RUN data))) st in
  consistent st1 ∧
  procs st1 = procs st ++ [newProcess self cmd opts] ∧
  sessions st1 !! sid = Some self ∧
  subprocess (heap st1 !!! self) = Some (length (procs st)) ∧
  sent st1 = sent st ∧ unhandled st1 = unhandled st ∧ world st1 = world st.
Proof.
  intros Hc Hparse Hspawn self st1.
  split; [by apply step_consistent|].
  destruct (receive_fields (Msg sid (RUN data)) st Hc)
    as (Hh & Hp & Ht & Hw & _ & _ & _ & Hu & Hs).
  fold st1 in Hh, Hp, Ht, Hw, Hu, Hs. cbn [sessionID Msg] in *.
  fold self in Hh, Hp, Ht, Hw, Hu, Hs. clearbody st1.
  rewrite <- (world_prepared st sid) in Hspawn.
  pose proof (run_effect self sid data cmd opts (prepared st sid) Hparse Hspawn)
    as HR.
  cbn zeta in HR. destruct HR as (Hr & Hp' & Hh' & Ht' & Hu' & _ & Hw').
  rewrite Hr in Hu, Hs. rewrite Hh' in Hh, Hs.
  destruct (target_prepared st sid Hc) as [Htab Hlt]. fold self in Htab, Hlt.
  apply lookup_lt_is_Some_2 in Hlt as [s Hsome].
  assert (heap st1 !! self
          = Some (setSubprocess (length (procs (prepared st sid)))
                    (addCount 1 s))) as Hs1.
  { by rewrite Hh, !list_lookup_alter_eq, Hsome. }
  pose proof (count_nonneg _ _ _ (prepared_consistent st sid Hc) Hsome) as Hnn.
  rewrite <- Hh, (list_lookup_total_correct _ _ _ Hs1) in Hs. cbn in Hs.
  rewrite bool_decide_eq_false_2 in Hs by lia.
  rewrite Hp, Hp', Ht, Ht', Hu, Hu', Hw, Hw', Hs, app_nil_r,
    (list_lookup_total_correct _ _ _ Hs1).
  rewrite procs_prepared, sent_prepared, unhandled_prepared, world_prepared.
  by repeat split.
Qed.

(** A KILL for a session of the table, seen from the client. *)
Lemma kill_receive sid self pid (st : State) :
  consistent st →
  sessions st !! sid = Some self →
  subprocess (heap st !!! self) = Some pid →
  let st1 := step (Receive (Msg sid KILL)) st in
  consistent st1 ∧
  procs st1 = alter addKill pid (procs st) ∧
  sessions st1 !! sid = Some self ∧
  subprocess (heap st1 !!! self) = Some pid ∧
  sent st1 = sent st ∧ unhandled st1 = unhandled st ∧ world st1 = world st.
Proof.
  intros Hc Htab Hsub st1.
  split; [by apply step_consistent|].
  destruct (receive_fields (Msg sid KILL) st Hc)
    as (Hh & Hp & Ht & Hw & _ & _ & _ & Hu & Hs).
  fold st1 in Hh, Hp, Ht, Hw, Hu, Hs. cbn [sessionID Msg] in *.
  clearbody st1.
  destruct (prepared_known st sid self Htab) as [Eprep Etar].
  rewrite Eprep, Etar in Hh, Hp, Ht, Hw, Hu, Hs.
  pose proof (kill_effect self sid st) as HK. cbn zeta in HK.
  destruct HK as (Hr & Ht' & Hh' & Hp' & Hu' & _ & Hw' & _).
  rewrite Hr in Hu, Hs. rewrite Hh' in Hh, Hs. rewrite Hsub in Hp'.
  destruct Hc as [T O C]. destruct (T sid self Htab) as (s & Hsome & _).
  pose proof (C self s Hsome) as Hnn.
  rewrite (list_lookup_total_correct _ _ _ Hsome) in Hsub.
  assert (heap st1 !! self = Some (addCount 1 s)) as Hs1.
  { by rewrite Hh, list_lookup_alter_eq, Hsome. }
  rewrite <- Hh, (list_lookup_total_correct _ _ _ Hs1) in Hs. cbn in Hs.
  rewrite bool_decide_eq_false_2 in Hs by lia.
  rewrite Hp, Hp', Ht, Ht', Hu, Hu', Hw, Hw', Hs, app_nil_r,
    (list_lookup_total_correct _ _ _ Hs1).
  by repeat split.
Qed.

Lemma kills_accumulate n sid self pid (st : State) :
  consistent st →
  sessions st !! sid = Some self →
  subprocess (heap st !!! self) = Some pid →
  let st' := exec (replicate n (Receive (Msg sid KILL))) st in
  procs st' = alter (killed n) pid (procs st) ∧
  sent st' = sent st ∧ unhandled st' = unhandled st.
Proof.
  revert st. induction n as [|n IH]; intros st Hc Htab Hsub.
  - cbn. split; [|done]. symmetry. apply list_alter_id. by intros [].
  - destruct (kill_receive sid self pid st Hc Htab Hsub)
      as (Hc1 & Hp1 & Htab1 & Hsub1 & Ht1 & Hu1 & _).
    destruct (IH _ Hc1 Htab1 Hsub1) as (Hp & Ht & Hu).
    change (exec (replicate (S n) (Receive (Msg sid KILL))) st)
      with (exec (replicate n (Receive (Msg sid KILL)))
              (step (Receive (Msg sid KILL)) st)).
    cbn zeta. rewrite Hp, Ht, Hu, Hp1, Ht1, Hu1.
    split; [|done]. rewrite list_alter_alter_eq.
    apply list_alter_ext; [|done]. intros [f a o r k] _. cbn.
    unfold killed, addKill. cbn. f_equal. lia.
Qed.


End LastRun.


Section Books.

Context {W : Type} `{Host W}.

Local Abbreviation State := (State W).

Lemma pending_app sid h1 h2 :
  pending sid (h1 ++ h2) = pending sid h1 + pending sid h2.
Proof.
  induction h1 as [|s h1 IH]; [done|].
  cbn [app pending foldr]. fold (pending sid (h1 ++ h2)) (pending sid h1).
  lia.
Qed.

Lemma pending_alter sid f self (h : list Session) s :
  h !! self = Some s → ownID (f s) = ownID s →
  pending sid (alter f self h) =
  pending sid h +
  if bool_decide (ownID s = sid)
  then activeMsgCount (f s) - activeMsgCount s else 0.
Proof.
  revert self. induction h as [|x h IH]; intros self Hs Hid; [done|].
  destruct self as [|self]; cbn in Hs.
  - injection Hs as ->. cbn [alter list_alter pending foldr]. rewrite Hid.
    fold (pending sid h). case_bool_decide; lia.
  - cbn [alter list_alter pending foldr].
    fold (alter f self h) (pending sid (alter f self h)) (pending sid h).
    rewrite (IH self Hs Hid). lia.
Qed.

Lemma pending_nonneg sid (h : list Session) :
  (∀ self s, h !! self = Some s → 0 ≤ activeMsgCount s) →
  0 ≤ pending sid h.
Proof.
  induction h as [|x h IH]; intros Hall; [done|].
  cbn [pending foldr]. fold (pending sid h).
  pose proof (Hall 0%nat x eq_refl).
  assert (0 ≤ pending sid h) by (apply IH; intros i s; apply (Hall (S i))).
  case_bool_decide; lia.
Qed.

Lemma pending_prepared sid sid' (st : State) :
  pending sid (heap (prepared st sid')) = pending sid (heap st).
Proof.
  unfold prepared. destruct (sessions st !! sid'); [done|].
  cbn [heap set_heap set_sessions]. rewrite pending_app. cbn.
  case_bool_decide; lia.
Qed.

Lemma reports_app sid a b :
  reports sid (a ++ b) = (reports sid a + reports sid b)%nat.
Proof. unfold reports. by rewrite filter_app, length_app. Qed.

Lemma reports_one sid frame :
  reports sid [frame] = if isReport sid frame then 1%nat else 0%nat.
Proof.
  unfold reports. rewrite filter_cons, filter_nil.
  destruct (isReport sid frame);
    [by rewrite decide_True|by rewrite decide_False].
Qed.

Lemma received_one sid ev :
  received sid [ev] = if isReceiveFor sid ev then 1%nat else 0%nat.
Proof.
  unfold received. rewrite filter_cons, filter_nil.
  destruct (isReceiveFor sid ev);
    [by rewrite decide_True|by rewrite decide_False].
Qed.

Lemma received_cons sid ev evs :
  received sid (ev :: evs) = (received sid [ev] + received sid evs)%nat.
Proof.
  unfold received. change (ev :: evs) with ([ev] ++ evs).
  by rewrite filter_app, length_app.
Qed.

(** The books of [sid] across one event: a message for [sid] adds one to
    them, nothing else changes them. *)
Lemma step_books sid ev (st : State) :
  consistent st →
  Z.of_nat (reports sid (sent (step ev st))) + pending sid (heap (step ev st))
  = Z.of_nat (reports sid (sent st)) + pending sid (heap st)
    + Z.of_nat (received sid [ev]).
Proof.
  intros Hc. destruct ev as [msg|pid code|pid chunk|pid chunk|].
  - destruct (receive_fields msg st Hc) as (Hh & _ & Ht & _).
    rewrite Hh, Ht. clear Hh Ht.
    set (sid' := sessionID msg). set (self := target st sid').
    destruct (target_prepared st sid' Hc) as [Htab _]. fold self in Htab.
    destruct (table_ok _ (prepared_consistent st sid' Hc) _ _ Htab)
      as (s & Hs & Hid).
    destruct (sessionOnMessage_Dispatch self msg (prepared st sid'))
      as [_ HD].
    rewrite <- (pending_prepared sid sid' st), <- (sent_prepared st sid').
    assert (Z.of_nat (received sid [Receive msg])
            = if bool_decide (sid' = sid) then 1 else 0) as ->.
    { rewrite received_one. cbn [isReceiveFor]. fold sid'.
      by case_bool_decide. }
    destruct HD as [data Hh Hp Ht|cmd opts Hh Hp Ht|Hh Hp Ht|e Hh Hp Ht];
      rewrite Hh, Ht.
    + rewrite reports_app, (list_lookup_total_correct _ _ _ Hs), Hid.
      rewrite reports_one. unfold isReport. cbn [fst snd].
      case_bool_decide; lia.
    + assert (alter (addCount 1) self (heap (prepared st sid')) !! self
              = Some (addCount 1 s)) as Hs1
        by (by rewrite list_lookup_alter_eq, Hs).
      rewrite (pending_alter sid _ self _ _ Hs1) by done.
      rewrite (pending_alter sid _ self _ _ Hs) by done.
      cbn. rewrite Hid. case_bool_decide; lia.
    + rewrite (pending_alter sid _ self _ _ Hs) by done.
      cbn. rewrite Hid. case_bool_decide; lia.
    + rewrite (pending_alter sid _ self _ _ Hs) by done.
      cbn. rewrite Hid. case_bool_decide; lia.
  - change (received sid [ProcExit pid code]) with 0%nat.
    destruct (procs st !! pid) as [p|] eqn:Hp;
      [|cbn [step]; rewrite Hp; lia].
    destruct (running p) eqn:Hr; [|cbn [step]; rewrite Hp, Hr; lia].
    destruct (exit_effect pid code p st Hp Hr) as (Ht & Hh & _).
    rewrite Ht, Hh. clear Ht Hh.
    pose proof (owner_ok _ Hc pid p Hp) as Hlt.
    apply lookup_lt_is_Some_2 in Hlt as [s Hs].
    rewrite (pending_alter sid _ _ _ _ Hs) by done.
    rewrite reports_app, (list_lookup_total_correct _ _ _ Hs).
    rewrite reports_one. unfold isReport. cbn.
    case_bool_decide; lia.
  - change (received sid [ProcStdout pid chunk]) with 0%nat. cbn [step].
    destruct (procs st !! pid) as [p|]; [|lia]. cbn -[reports pending].
    rewrite reports_app, reports_one. cbn. lia.
  - change (received sid [ProcStderr pid chunk]) with 0%nat. cbn [step].
    destruct (procs st !! pid) as [p|]; [|lia]. cbn -[reports pending].
    rewrite reports_app, reports_one. cbn. lia.
  - change (received sid [Settle]) with 0%nat. cbn [step].
    destruct (floating st) as [|[filepath content] rest]; [lia|].
    unfold top.
    destruct (offstage_writeFile filepath content (set_floating rest st))
      as (Hh & _ & _ & Ht & _).
    destruct (writeFile filepath content (set_floating rest st))
      as [st1 [[]|e]]; cbn -[reports pending] in *; rewrite Hh, Ht; lia.
Qed.

Lemma exec_books sid evs (st : State) :
  consistent st →
  Z.of_nat (reports sid (sent (exec evs st))) + pending sid (heap (exec evs st))
  = Z.of_nat (reports sid (sent st)) + pending sid (heap st)
    + Z.of_nat (received sid evs).
Proof.
  revert st. induction evs as [|ev evs IH]; intros st Hc.
  - cbn. lia.
  - change (exec (ev :: evs) st) with (exec evs (step ev st)).
    rewrite (IH _ (step_consistent ev st Hc)), (step_books sid ev st Hc).
    rewrite (received_cons sid ev evs). lia.
Qed.


End Books.

Section Confinement.

Context {W : Type} `{Host W}.

Local Abbreviation State := (State W).


End Confinement.


(** ** Further properties of the tokenizer *)

Section TokenizerEdges.

Lemma tokens_nonempty q cur s : tokens q cur s ≠ [].
Proof.
  intros E. apply (f_equal length) in E. by rewrite tokens_length in E.
Qed.

Lemma concat_cons sep x (l : list string) :
  l ≠ [] → String.concat sep (x :: l) = x +:+ sep +:+ String.concat sep l.
Proof. by destruct l. Qed.

Lemma chars_snoc cur c :
  list_ascii_of_string (cur +:+ str1 c) = list_ascii_of_string cur ++ [c].
Proof.
  induction cur as [|a cur IH]; [done|].
  rewrite append_cons. cbn [list_ascii_of_string]. by rewrite IH.
Qed.

Lemma tokens_quoteFree_join cur s :
  quoteFree s → String.concat (str1 blank) (tokens None cur s) = cur +:+ s.
Proof.
  revert cur. induction s as [|c s IH]; intros cur Hs.
  - cbn. by rewrite append_nil_r.
  - apply Forall_cons in Hs as [Hc Hs]. cbn [tokens]. rewrite Hc.
    destruct (decide (c = blank)) as [->|Hb].
    + rewrite bool_decide_eq_true_2 by done.
      rewrite concat_cons by apply tokens_nonempty.
      by rewrite (IH EmptyString Hs), append_nil_l.
    + rewrite bool_decide_eq_false_2 by done.
      rewrite (IH _ Hs). unfold str1. by rewrite append_assoc.
Qed.

Lemma tokens_quoteFree_blankless cur s :
  quoteFree s → blank ∉ list_ascii_of_string cur →
  Forall (λ t, blank ∉ list_ascii_of_string t) (tokens None cur s).
Proof.
  revert cur. induction s as [|c s IH]; intros cur Hs Hcur.
  - by constructor.
  - apply Forall_cons in Hs as [Hc Hs]. cbn [tokens]. rewrite Hc.
    destruct (decide (c = blank)) as [->|Hb].
    + rewrite bool_decide_eq_true_2 by done. constructor; [done|].
      apply IH; [done|]. cbn. apply not_elem_of_nil.
    + rewrite bool_decide_eq_false_2 by done. apply IH; [done|].
      rewrite chars_snoc. intros [Hin|Hin]%elem_of_app; [done|].
      apply list_elem_of_singleton in Hin. by subst.
Qed.

Lemma run_open_span q span pre cur :
  q ∉ list_ascii_of_string span →
  run span (Loop (pre ++ [cur]) (Some q)) =
  Loop (pre ++ [cur +:+ span]) (Some q).
Proof.
  revert cur. induction span as [|c span IH]; intros cur Hnot.
  - by rewrite append_nil_r.
  - cbn [list_ascii_of_string] in Hnot.
    apply not_elem_of_cons in Hnot as [Hne Hnot].
    rewrite run_cons, body_quoted by done.
    rewrite IH by done. unfold str1. by rewrite append_assoc.
Qed.

(** X16. A command without quotes is split at every space and nowhere
    else: no token holds a space, and the tokens joined by single spaces
    are the command again. *)
Theorem parseCommand_without_quotes s :
  quoteFree s →
  String.concat (str1 blank) (parseCommand s) = s ∧
  Forall (λ t, blank ∉ list_ascii_of_string t) (parseCommand s).
Proof.
  intros Hs. rewrite parseCommand_tokenize. unfold tokenize. split.
  - by rewrite tokens_quoteFree_join, append_nil_l.
  - apply tokens_quoteFree_blankless; [done|]. cbn. apply not_elem_of_nil.
Qed.

(** X17. A quote that is never closed is no error: it quotes the rest of
    the command.  When no quote is open after [a] and the quote [q] does
    not occur again in [rest], the command [a q rest] has the tokens of
    [a] with [rest] joined to the last of them, letter for letter, spaces
    and quotes of the other kind included; the quote itself is dropped. *)
Theorem unclosed_quote_takes_the_rest a q rest :
  quoteAfter None a = None →
  isQuoteChar q = true →
  q ∉ list_ascii_of_string rest →
  ∃ pre cur,
    parseCommand a = pre ++ [cur] ∧
    parseCommand (a +:+ String q rest) = pre ++ [cur +:+ rest].
Proof.
  intros Ha Hq Hnot. unfold parseCommand. rewrite run_app.
  unfold quoteAfter in Ha. change (Loop [EmptyString] None) with start in Ha.
  destruct (run a start) as [cs qa] eqn:Hrun. cbn [chunks quoteChar] in *.
  subst qa.
  assert (cs ≠ []) as Hne.
  { pose proof (run_tokens a [] EmptyString None) as Ht.
    change (Loop ([] ++ [EmptyString]) None) with start in Ht.
    rewrite Hrun in Ht. cbn in Ht. rewrite Ht. apply tokens_nonempty. }
  destruct (exists_last Hne) as (pre & cur & ->).
  exists pre, cur. split; [done|].
  by rewrite run_cons, body_open, run_open_span.
Qed.

End TokenizerEdges.

Lemma parseCommand_without_quotes_witness :
  quoteFree "ls -la  /tmp" ∧
  String.concat (str1 blank) (parseCommand "ls -la  /tmp") = "ls -la  /tmp".
Proof.
  assert (quoteFree "ls -la  /tmp") as Hs by (repeat constructor).
  split; [exact Hs|].
  apply (proj1 (parseCommand_without_quotes "ls -la  /tmp" Hs)).
Defined.

Lemma unclosed_quote_takes_the_rest_witness :
  ∃ pre cur,
    parseCommand "echo " = pre ++ [cur] ∧
    parseCommand ("echo " +:+ String squote "a b") = pre ++ [cur +:+ "a b"].
Proof.
  apply (unclosed_quote_takes_the_rest "echo " squote "a b").
  - reflexivity.
  - reflexivity.
  - apply (bool_decide_unpack _). vm_compute. exact I.
Defined.
